(** * Skaffold: the git-commit tagger and the event server

    A shallow embedding of two files of the repository,

      - [pkg/skaffold/build/tag/git_commit.go]  (module [Tag])
      - [pkg/skaffold/event/server.go]          (module [Event])

    Go strings are byte sequences: they are modelled as [string], whose
    characters are the 256 values of [ascii].  Go errors are modelled by
    their message.  Calls that leave the process (running git, binding a
    socket, reading the clock) are inputs of the model. *)

From Stdlib Require Import ZArith NArith Lia List Ascii String Bool.
From stdpp Require Import base option list gmap strings.

Import ListNotations.
Local Open Scope string_scope.
Local Open Scope list_scope.

(** ** Go values shared by both files *)

(** A Go [error] value, observed through its message. *)
Definition go_error := string.

(** [(T, error)] results: exactly one side is meaningful in the code below. *)
Inductive result (A : Type) : Type :=
| Ok (a : A)
| Failure (e : go_error).
Arguments Ok {A} a.
Arguments Failure {A} e.

(** [fmt.Errorf("<msg>: %w", err)] and [errors.Wrap(err, "<msg>")] both
    produce an error whose message is ["<msg>: " ++ err.Error()]. *)
Definition wrap (msg : string) (e : go_error) : go_error := msg +:+ ": " +:+ e.

(** [strings.Repeat(s, n)] for a one-byte [s]. *)
Fixpoint repeat_byte (c : ascii) (n : nat) : string :=
  match n with
  | O => ""
  | S k => String c (repeat_byte c k)
  end.

Module Tag.

(** *** Bytes and runes *)

Definition code (c : ascii) : N := N_of_ascii c.

Definition between (lo hi : N) (c : ascii) : bool :=
  ((lo <=? code c) && (code c <=? hi))%N.

(** The character class [a-zA-Z0-9-._] of line 103 (the [-] after the
    range [0-9] stands for itself). *)
Definition supported (c : ascii) : bool :=
  between 97 122 c || between 65 90 c || between 48 57 c
  || Ascii.eqb c "-" || Ascii.eqb c "." || Ascii.eqb c "_".

(** The character class [-.] of line 106. *)
Definition dash_or_dot (c : ascii) : bool :=
  Ascii.eqb c "-" || Ascii.eqb c ".".

(** What [.] matches: every character but the line feed. *)
Definition not_newline (c : ascii) : bool :=
  negb (Ascii.eqb c "010").

(** The regexp engine reads its input rune by rune with
    [utf8.DecodeRuneInString]: [rune_width s] is the number of bytes of the
    first rune of a non-empty [s]; a byte that starts no well-formed
    encoding is a rune (U+FFFD) of width 1. *)
Definition continuation (lo hi : N) (s : string) : option string :=
  match s with
  | String c rest => if between lo hi c then Some rest else None
  | EmptyString => None
  end.

Definition rune_width (s : string) : nat :=
  match s with
  | EmptyString => 0
  | String c0 rest =>
      let two lo hi :=
        match continuation lo hi rest with
        | Some _ => 2 | None => 1
        end%nat in
      let three lo hi :=
        match continuation lo hi rest with
        | Some r1 => match continuation 128 191 r1 with
                     | Some _ => 3 | None => 1
                     end
        | None => 1
        end%nat in
      let four lo hi :=
        match continuation lo hi rest with
        | Some r1 => match continuation 128 191 r1 with
                     | Some r2 => match continuation 128 191 r2 with
                                  | Some _ => 4 | None => 1
                                  end
                     | None => 1
                     end
        | None => 1
        end%nat in
      if between 0 127 c0 then 1%nat
      else if between 194 223 c0 then two 128%N 191%N
      else if between 224 224 c0 then three 160%N 191%N
      else if between 225 236 c0 then three 128%N 191%N
      else if between 237 237 c0 then three 128%N 159%N
      else if between 238 239 c0 then three 128%N 191%N
      else if between 240 240 c0 then four 144%N 191%N
      else if between 241 243 c0 then four 128%N 191%N
      else if between 244 244 c0 then four 128%N 143%N
      else 1%nat
  end.

(** Every byte of [s] satisfies [p]. *)
Fixpoint all_bytes (p : ascii -> bool) (s : string) : bool :=
  match s with
  | EmptyString => true
  | String c rest => p c && all_bytes p rest
  end.

(** The characters a docker tag is made of. *)
Definition alphabet : string :=
  "abcdefghijklmnopqrstuvwxyzABCDEFGHIJKLMNOPQRSTUVWXYZ0123456789-._".

(** *** sanitizeTag (lines 101-119) *)

(** Line 103: [ReplaceAllString] with the class [[^a-zA-Z0-9-._]] and the
    replacement [_].  Every rune outside the class becomes one [_]; [skip]
    counts the bytes still to drop of a rune that has been replaced. *)
Fixpoint replace_unsupported (skip : nat) (s : string) : string :=
  match s with
  | EmptyString => EmptyString
  | String c rest =>
      match skip with
      | S k => replace_unsupported k rest
      | O =>
          if supported c then String c (replace_unsupported 0 rest)
          else String "_" (replace_unsupported (rune_width s - 1) rest)
      end
  end.

(** The longest prefix whose characters satisfy [p], and what follows. *)
Fixpoint span (p : ascii -> bool) (s : string) : string * string :=
  match s with
  | EmptyString => (EmptyString, EmptyString)
  | String c rest =>
      if p c then let '(a, b) := span p rest in (String c a, b)
      else (EmptyString, s)
  end.

(** Line 106: [FindStringSubmatch] with a pattern of two groups, the
    class [-.] starred and then the dot starred.  Both groups are greedy and
    the pattern matches at offset 0: group 1 is the leading run of [-] and
    [.], group 2 the following run of characters other than the line
    feed. *)
Definition prefixSuffix (sanitized : string) : string * string :=
  let '(g1, after) := span dash_or_dot sanitized in
  (g1, fst (span not_newline after)).

(** The warning of line 115 is written to the logger and has no effect on
    the value returned. *)
Definition sanitizeTag (tag : string) : string :=
  let sanitized := replace_unsupported 0 tag in
  let '(g1, g2) := prefixSuffix sanitized in
  let sanitized := repeat_byte "_" (String.length g1) +:+ g2 in
  if (128 <? String.length sanitized)%nat then substring 0 128 sanitized
  else sanitized.

(** The reading of [sanitizeTag] byte by byte, for a tag of ASCII
    characters, where a rune is a byte: every unsupported character becomes
    [_], then every leading [-] or [.] becomes [_], and the first 128
    bytes are kept. *)
Fixpoint map_bytes (f : ascii -> ascii) (s : string) : string :=
  match s with
  | EmptyString => EmptyString
  | String c rest => String (f c) (map_bytes f rest)
  end.

Fixpoint underscore_leading (s : string) : string :=
  match s with
  | EmptyString => EmptyString
  | String c rest =>
      if dash_or_dot c then String "_" (underscore_leading rest) else s
  end.

Definition sanitizeTag_bytewise (tag : string) : string :=
  substring 0 128
    (underscore_leading
       (map_bytes (fun c => if supported c then c else "_"%char) tag)).

(** The reading of [sanitizeTag] rune by rune, for every tag.  The tag
    is cut into runes as Go decodes them; a rune that is one supported
    character stays, every other rune becomes one [_]; then every leading
    [-] or [.] becomes [_], and the first 128 bytes are kept. *)
Fixpoint string_drop (n : nat) (s : string) : string :=
  match n, s with
  | O, _ => s
  | S n, String _ rest => string_drop n rest
  | S _, EmptyString => EmptyString
  end.

Fixpoint runes_upto (fuel : nat) (s : string) : list string :=
  match fuel with
  | O => []
  | S fuel =>
      match s with
      | EmptyString => []
      | String _ _ =>
          substring 0 (rune_width s) s
            :: runes_upto fuel (string_drop (rune_width s) s)
      end
  end.

(** A rune has at least one byte: the length of the tag is fuel enough. *)
Definition runes (s : string) : list string :=
  runes_upto (String.length s) s.

Definition replace_rune (r : string) : ascii :=
  match r with
  | String c EmptyString => if supported c then c else "_"%char
  | _ => "_"%char
  end.

Definition sanitizeTag_runewise (tag : string) : string :=
  substring 0 128
    (underscore_leading
       (string_of_list_ascii (map replace_rune (runes tag)))).

(** *** The git commands (lines 42-46 and 121-179) *)

(** What the tagger asks of its environment: [util.RunCmdOut] on a command
    [git arg...] run in a directory, and four functions of Go's standard
    library. *)
Class Sys := {
  RunCmdOut : string -> list string -> result string;
  TrimSpace : string -> string;
  filepath_Abs : string -> result string;
  filepath_EvalSymlinks : string -> result string;
  filepath_Rel : string -> string -> result string
}.

(** The error monad of [if err != nil { return "", err }]. *)
Definition bind {A B} (m : result A) (k : A -> result B) : result B :=
  match m with
  | Ok a => k a
  | Failure e => Failure e
  end.

Notation "'let*' x ':=' m 'in' k" := (bind m (fun x => k))
  (at level 10, x name, m at level 100, k at level 200).

(** The [iota] constants of lines 34-40. *)
Definition tags : Z := 0.
Definition commitSha : Z := 1.
Definition abbrevCommitSha : Z := 2.
Definition treeSha : Z := 3.
Definition abbrevTreeSha : Z := 4.

Record GitCommit := {
  prefix : string;
  variant : Z
}.

Section Git.
Context `{Sys}.

Definition runGit (workingDir : string) (arg : list string) : result string :=
  let* out := RunCmdOut workingDir arg in
  Ok (TrimSpace out).

Definition getGitPathToWorkdir (workingDir : string) : result string :=
  let* absWorkingDir := filepath_Abs workingDir in
  let* absWorkingDir := filepath_EvalSymlinks absWorkingDir in
  let* gitRoot := runGit workingDir ["rev-parse"; "--show-toplevel"] in
  filepath_Rel gitRoot absWorkingDir.

Definition makeGitTag (c : GitCommit) (workingDir : string) : result string :=
  if (variant c =? tags)%Z then
    runGit workingDir ["describe"; "--tags"; "--always"]
  else if ((variant c =? commitSha) || (variant c =? abbrevCommitSha))%Z then
    let args := ["rev-list"; "-1"; "HEAD"] in
    let args :=
      if (variant c =? abbrevCommitSha)%Z then (args ++ ["--abbrev-commit"])%list
      else args in
    runGit workingDir args
  else if ((variant c =? treeSha) || (variant c =? abbrevTreeSha))%Z then
    let* gitPath := getGitPathToWorkdir workingDir in
    let args := ["rev-parse"] in
    let args :=
      if (variant c =? abbrevTreeSha)%Z then (args ++ ["--short"])%list
      else args in
    let args := (args ++ ["HEAD:" +:+ gitPath +:+ "/"])%list in
    runGit workingDir args
  else Failure "invalid git tag variant: defaulting to 'dirty'".

Definition GenerateFullyQualifiedImageName
    (c : GitCommit) (workingDir imageName : string) : result string :=
  match makeGitTag c workingDir with
  | Failure err => Failure (wrap "unable to find git commit" err)
  | Ok ref =>
      match runGit workingDir ["status"; "."; "--porcelain"] with
      | Failure err => Failure (wrap "getting git status" err)
      | Ok changes =>
          if (0 <? String.length changes)%nat then
            Ok (imageName +:+ ":" +:+ prefix c +:+ ref +:+ "-dirty")
          else
            Ok (imageName +:+ ":" +:+ prefix c +:+ sanitizeTag ref)
      end
  end.

End Git.

(** *** NewGitCommit (lines 48-71) *)

(** [strings.ToLower].  On a string of ASCII bytes it maps [A-Z] to [a-z]
    byte by byte; any other string is mapped rune by rune with
    [unicode.ToLower], which is an input here. *)
Definition lower_byte (c : ascii) : ascii :=
  if between 65 90 c then ascii_of_N (code c + 32) else c.

Definition is_ascii (s : string) : bool := all_bytes (between 0 127) s.

Definition ToLower (unicode_ToLower : string -> string) (s : string) : string :=
  if is_ascii s then map_bytes lower_byte s else unicode_ToLower s.

Definition NewGitCommit (unicode_ToLower : string -> string)
    (prefix taggerVariant : string) : result GitCommit :=
  let v := ToLower unicode_ToLower taggerVariant in
  if String.eqb v "" || String.eqb v "tags" then
    Ok (Build_GitCommit prefix tags)
  else if String.eqb v "commitsha" then
    Ok (Build_GitCommit prefix commitSha)
  else if String.eqb v "abbrevcommitsha" then
    Ok (Build_GitCommit prefix abbrevCommitSha)
  else if String.eqb v "treesha" then
    Ok (Build_GitCommit prefix treeSha)
  else if String.eqb v "abbrevtreesha" then
    Ok (Build_GitCommit prefix abbrevTreeSha)
  else
    Failure (taggerVariant +:+ " is not a valid git tagger variant").

(** The variants that [makeGitTag] has a case for. *)
Definition known_variant (v : Z) : bool :=
  ((v =? tags) || (v =? commitSha) || (v =? abbrevCommitSha)
   || (v =? treeSha) || (v =? abbrevTreeSha))%Z.

(** *** sanitizeTag and its warning (lines 109-118) *)

(** [sanitizeTag] with the warning of line 115: the value returned and,
    when [logrus.Warnf] is called, its two arguments. *)
Definition sanitizeTag_logged (tag : string)
    : string * option (string * string) :=
  let sanitized := replace_unsupported 0 tag in
  let '(g1, g2) := prefixSuffix sanitized in
  let sanitized := repeat_byte "_" (String.length g1) +:+ g2 in
  if (128 <? String.length sanitized)%nat then
    (substring 0 128 sanitized, None)
  else if negb (String.eqb tag sanitized) then
    (sanitized, Some (sanitized, tag))
  else (sanitized, None).

(** The form [sanitizeTag] brings a tag to: at most 128 of the supported
    characters, the first of them neither [-] nor [.]. *)
Definition well_formed_tag (s : string) : bool :=
  (String.length s <=? 128)%nat
  && all_bytes supported s
  && match s with
     | String c _ => negb (dash_or_dot c)
     | EmptyString => true
     end.

(** A scripted environment for the examples: a repository at [/src] whose
    [git describe] prints [desc] and whose [git status] prints [status].
    Paths are left as they are and output is trimmed of the line feeds and
    spaces around it. *)
Fixpoint trim_left (s : string) : string :=
  match s with
  | String c rest =>
      if Ascii.eqb c " " || Ascii.eqb c "010" then trim_left rest else s
  | EmptyString => EmptyString
  end.

Fixpoint trim_right (s : string) : string :=
  match s with
  | String c rest =>
      match trim_right rest with
      | EmptyString =>
          if Ascii.eqb c " " || Ascii.eqb c "010" then EmptyString
          else String c EmptyString
      | rest' => String c rest'
      end
  | EmptyString => EmptyString
  end.

Definition scripted (desc status : string) : Sys :=
  {| RunCmdOut := fun _ arg =>
       match arg with
       | "describe" :: _ => Ok desc
       | "status" :: _ => Ok status
       | _ => Failure "exit status 128"
       end;
     TrimSpace := fun s => trim_right (trim_left s);
     filepath_Abs := Ok;
     filepath_EvalSymlinks := Ok;
     filepath_Rel := fun _ target => Ok target |}.

End Tag.

Module Event.

(** *** The messages of package [proto]

    The generated package [proto] is not part of the sources read here; the
    records below have the fields that [server.go] reads and writes. *)

(** Modelled from the spec: the structured port-forward descriptor of a
    Port event, written as 8080 to 80 there; its declaration is missing. *)
Record proto_PortInfo := {
  LocalPort : Z;
  RemotePort : Z
}.

(** [PortInfo] is optional, as in the spec's data model. *)
Record proto_Event := {
  EventType : string;
  Artifact : string;
  Status : string;
  Err : string;
  PortInfo : option proto_PortInfo
}.

Record proto_LogEntry := {
  Timestamp : Z;
  Type_ : string;
  Entry : string;
  Error : string
}.

Record proto_BuildState := {
  Artifacts : gmap string string
}.

(** The field is [Status] in the source; [Status] names the event's field
    here. *)
Record proto_DeployState := {
  DeployStatus : string
}.

Record proto_PortState := {
  ForwardedPorts : list (option proto_PortInfo)
}.

Record proto_State := {
  BuildState : proto_BuildState;
  DeployState : proto_DeployState;
  PortState : proto_PortState
}.

(** The reply [&empty.Empty{}]. *)
Definition Empty := unit.

(** The event kinds and statuses that [Handle] compares with.  They are
    declared in another file of the package: they are parameters here. *)
Class Constants := {
  Build : string;
  Deploy : string;
  Port : string;
  InProgress : string;
  Complete : string;
  Failed : string
}.

(** The three kinds differ from one another, and so do the three
    statuses. *)
Definition distinct_constants `{Constants} : Prop :=
  NoDup [Build; Deploy; Port] /\ NoDup [InProgress; Complete; Failed].

(** *** The handler [ev] and the streams attached to it *)

(** Modelled from the spec: the package variable [ev], declared in another
    file, with the state, the log and the listener channels that
    [server.go] reaches through it.  [ev.state] (line 37) and
    [ev.eventHandler.state] (lines 60-84) are the same field.  A channel is
    named by a number. *)
Record eventHandler := {
  state : proto_State;
  eventLog : list proto_LogEntry;
  listeners : list nat
}.

(** Where one call of [EventLog] stands. *)
Inductive position :=
| Replaying (pending : list proto_LogEntry)
    (* lines 41-45, the entries of the ranged slice still to send *)
| Live
    (* line 50, blocked on the channel *)
| Sending (entry : proto_LogEntry)
    (* line 51, with the entry received at line 50 *)
| Returned (err : go_error).
    (* lines 43 and 52 *)

(** One call of [EventLog]: the remote end of its stream ([None] while it
    is connected, [Some err] once [stream.Send] fails with [err]), the
    position of the call, and what [stream.Send] has sent so far. *)
Record stream := {
  peer : option go_error;
  pc : position;
  sent : list proto_LogEntry
}.

(** The handler and the calls of [EventLog], each under the number of the
    channel it makes at line 46. *)
Record world := {
  ev : eventHandler;
  streams : gmap nat stream
}.

Definition set_pc (p : position) (s : stream) : stream :=
  {| peer := peer s; pc := p; sent := sent s |}.

Definition set_peer (r : option go_error) (s : stream) : stream :=
  {| peer := r; pc := pc s; sent := sent s |}.

Definition set_state (st : proto_State) (h : eventHandler) : eventHandler :=
  {| state := st; eventLog := eventLog h; listeners := listeners h |}.

(** Modelled from the spec: the state and the log are created once at
    process start, empty; the map of artifacts is allocated, as the
    assignment of line 60 needs. *)
Definition empty_state : proto_State :=
  {| BuildState := {| Artifacts := ∅ |};
     DeployState := {| DeployStatus := "" |};
     PortState := {| ForwardedPorts := [] |} |}.

Definition init : world :=
  {| ev := {| state := empty_state; eventLog := []; listeners := [] |};
     streams := ∅ |}.

(** *** GetState (lines 36-38) *)

Definition GetState (w : world) : proto_State * option go_error :=
  (state (ev w), None).

(** *** EventLog (lines 40-55) *)

(** [stream.Send(&entry)]. *)
Definition Send (entry : proto_LogEntry) (s : stream)
    : stream * option go_error :=
  match peer s with
  | None => ({| peer := peer s; pc := pc s; sent := sent s ++ [entry] |}, None)
  | Some err => (s, Some err)
  end.

(** Lines 51-53, the rest of a turn of the second loop: [entry] has been
    received from the channel at line 50 and is sent on. *)
Definition forward (entry : proto_LogEntry) (s : stream) : stream :=
  match Send entry s with
  | (s, None) => set_pc Live s
  | (s, Some err) => set_pc (Returned err) s
  end.

(** Modelled from the spec: [Subscribe] registers a new delivery endpoint
    ([ev.RegisterListener] is declared in another file). *)
Definition RegisterListener (c : nat) (h : eventHandler) : eventHandler :=
  {| state := state h; eventLog := eventLog h; listeners := listeners h ++ [c] |}.

(** The call of [EventLog] for a new stream: the [range] clause of line 41
    evaluates [ev.eventLog] once. *)
Definition EventLog_call (c : nat) (w : world) : option world :=
  match streams w !! c with
  | Some _ => None
  | None =>
      Some {| ev := ev w;
              streams := <[c := {| peer := None;
                                   pc := Replaying (eventLog (ev w));
                                   sent := [] |}]> (streams w) |}
  end.

(** The next step of the call on channel [c]: one turn of the first loop
    (lines 41-45), lines 46-47 once the ranged slice is exhausted, or the
    [stream.Send] of line 51.  At line 50 the call is blocked: it moves
    only when [logEvent] writes to the channel. *)
Definition EventLog_step (c : nat) (w : world) : option world :=
  match streams w !! c with
  | None => None
  | Some s =>
      match pc s with
      | Replaying (entry :: rest) =>
          match Send entry s with
          | (s, None) =>
              Some {| ev := ev w;
                      streams := <[c := set_pc (Replaying rest) s]> (streams w) |}
          | (s, Some err) =>
              Some {| ev := ev w;
                      streams := <[c := set_pc (Returned err) s]> (streams w) |}
          end
      | Replaying [] =>
          Some {| ev := RegisterListener c (ev w);
                  streams := <[c := set_pc Live s]> (streams w) |}
      | Live => None
      | Sending entry =>
          Some {| ev := ev w;
                  streams := <[c := forward entry s]> (streams w) |}
      | Returned _ => None
      end
  end.

(** The remote end of stream [c] goes away: from now on [stream.Send]
    returns [err]. *)
Definition disconnect (c : nat) (err : go_error) (w : world) : option world :=
  match streams w !! c with
  | None => None
  | Some s =>
      Some {| ev := ev w; streams := <[c := set_peer (Some err) s]> (streams w) |}
  end.

(** *** logEvent *)

(** The call on [c] is blocked on its channel, ready to receive. *)
Definition is_live (ss : gmap nat stream) (c : nat) : bool :=
  match ss !! c with
  | Some s => match pc s with Live => true | _ => false end
  | None => false
  end.

(** What a delivery does to a call: the receive of line 50 if the call is
    there to receive, nothing otherwise. *)
Definition deliver (entry : proto_LogEntry) (s : stream) : stream :=
  match pc s with
  | Live => set_pc (Sending entry) s
  | _ => s
  end.

(** Modelled from the spec: the fan-out of [Append].  The entry is
    delivered to every live subscriber in registration order, with a
    bounded wait; a subscriber that cannot accept it is dropped.  The
    channel of line 46 has no buffer, so it accepts an entry only while
    its call is blocked at line 50: when the wait ends on a call that is
    still inside [stream.Send], or has returned, the listener is
    dropped.  A wait that ends well is a schedule in which the call
    takes its step before the producer does. *)
Fixpoint fanout (entry : proto_LogEntry) (ls : list nat) (ss : gmap nat stream)
    : list nat * gmap nat stream :=
  match ls with
  | [] => ([], ss)
  | c :: ls =>
      match ss !! c with
      | Some s =>
          match pc s with
          | Live =>
              let '(ls', ss') :=
                fanout entry ls (<[c := set_pc (Sending entry) s]> ss) in
              (c :: ls', ss')
          | _ => fanout entry ls ss
          end
      | None => fanout entry ls ss
      end
  end.

(** Modelled from the spec: [Append(entry)] adds [entry] to the end of the
    log, then delivers a copy to every currently live subscriber
    ([ev.logEvent] is declared in another file). *)
Definition logEvent (entry : proto_LogEntry) (w : world) : world :=
  let '(ls, ss) := fanout entry (listeners (ev w)) (streams w) in
  {| ev := {| state := state (ev w);
              eventLog := eventLog (ev w) ++ [entry];
              listeners := ls |};
     streams := ss |}.

(** *** Handle (lines 57-99) *)

Section Handle.
Context `{Constants}.

(** Line 60: the assignment to the map entry of [event.Artifact]. *)
Definition set_artifact (artifact status : string) (st : proto_State)
    : proto_State :=
  {| BuildState := {| Artifacts := <[artifact := status]> (Artifacts (BuildState st)) |};
     DeployState := DeployState st;
     PortState := PortState st |}.

(** Line 72. *)
Definition set_deploy (status : string) (st : proto_State) : proto_State :=
  {| BuildState := BuildState st;
     DeployState := {| DeployStatus := status |};
     PortState := PortState st |}.

(** Line 84. *)
Definition append_port (p : option proto_PortInfo) (st : proto_State)
    : proto_State :=
  {| BuildState := BuildState st;
     DeployState := DeployState st;
     PortState := {| ForwardedPorts := ForwardedPorts (PortState st) ++ [p] |} |}.

(** Lines 58-86: the three conditionals in sequence, on the state and on
    the local variable [entry].  A [switch] whose cases do not match leaves
    [entry] as it is. *)
Definition Handle_update (event : proto_Event) (st : proto_State)
    : proto_State * string :=
  let entry := "" in
  let '(st, entry) :=
    if String.eqb (EventType event) Build then
      (set_artifact (Artifact event) (Status event) st,
       if String.eqb (Status event) InProgress then
         "Build started for artifact " +:+ Artifact event
       else if String.eqb (Status event) Complete then
         "Build completed for artifact " +:+ Artifact event
       else if String.eqb (Status event) Failed then
         "Build failed for artifact " +:+ Artifact event
       else entry)
    else (st, entry) in
  let '(st, entry) :=
    if String.eqb (EventType event) Deploy then
      (set_deploy (Status event) st,
       if String.eqb (Status event) InProgress then "Deploy started"
       else if String.eqb (Status event) Complete then "Deploy complete"
       else if String.eqb (Status event) Failed then "Deploy failed"
       else entry)
    else (st, entry) in
  let st :=
    if String.eqb (EventType event) Port then append_port (PortInfo event) st
    else st in
  (st, entry).

(** The messages as the spec tables them, by kind and status, each made
    from the artifact of the event; a kind and status with no row give the
    empty message. *)
Definition message_table : list (string * string * (string -> string)) :=
  [ (Build, InProgress, fun id => "Build started for artifact " +:+ id);
    (Build, Complete, fun id => "Build completed for artifact " +:+ id);
    (Build, Failed, fun id => "Build failed for artifact " +:+ id);
    (Deploy, InProgress, fun _ => "Deploy started");
    (Deploy, Complete, fun _ => "Deploy complete");
    (Deploy, Failed, fun _ => "Deploy failed") ].

Definition derived_message (event : proto_Event) : string :=
  match
    List.find (fun row =>
                 String.eqb (EventType event) (fst (fst row))
                 && String.eqb (Status event) (snd (fst row)))
              message_table
  with
  | Some row => snd row (Artifact event)
  | None => ""
  end.

(** Lines 92-97: the entry handed to [ev.logEvent]; [now] is the value of
    [ptypes.TimestampNow()]. *)
Definition Handle_entry (now : Z) (event : proto_Event) (entry : string)
    : proto_LogEntry :=
  {| Timestamp := now;
     Type_ := EventType event;
     Entry := entry;
     Error := Err event |}.

Definition Handle (now : Z) (event : proto_Event) (w : world)
    : world * (Empty * option go_error) :=
  let '(st, entry) := Handle_update event (state (ev w)) in
  let w := {| ev := set_state st (ev w); streams := streams w |} in
  let w := logEvent (Handle_entry now event entry) w in
  (w, (tt, None)).

(** *** Producers and subscribers running together *)

(** What can happen next: a producer calls [Handle]; a client opens stream
    [c] and [EventLog] starts; the call on [c] takes its next step; the
    remote end of [c] goes away.  Each is atomic, and they interleave in
    any order. *)
Inductive action :=
| Produce (now : Z) (event : proto_Event)
| Attach (c : nat)
| Advance (c : nat)
| Disconnect (c : nat) (err : go_error).

Definition step (a : action) (w : world) : option world :=
  match a with
  | Produce now event => Some (fst (Handle now event w))
  | Attach c => EventLog_call c w
  | Advance c => EventLog_step c w
  | Disconnect c err => disconnect c err w
  end.

Fixpoint run (sched : list action) (w : world) : option world :=
  match sched with
  | [] => Some w
  | a :: sched =>
      match step a w with
      | Some w => run sched w
      | None => None
      end
  end.

(** The call on [c] cannot take an entry: it is in its first loop, not
    yet registered, or inside the [stream.Send] of line 51. *)
Definition busy (c : nat) (w : world) : bool :=
  match streams w !! c with
  | Some s =>
      match pc s with
      | Replaying _ => true
      | Sending _ => true
      | _ => false
      end
  | None => false
  end.

Definition appends (a : action) : bool :=
  match a with Produce _ _ => true | _ => false end.

(** Every entry is appended while the call on [c] can take it: none
    between its reading of [ev.eventLog] (line 41) and its registration
    (line 47), and none while it is inside [stream.Send] (line 51). *)
Fixpoint ready_at_appends (c : nat) (sched : list action) (w : world) : bool :=
  match sched with
  | [] => true
  | a :: sched =>
      negb (busy c w && appends a)
      && match step a w with
         | Some w => ready_at_appends c sched w
         | None => true
         end
  end.

(** The ordering property as the spec words it: whatever the
    interleaving, a subscriber that has replayed and is receiving has been
    sent exactly the log. *)
Definition replay_then_live_exact : Prop :=
  forall sched w c s,
    run sched init = Some w ->
    streams w !! c = Some s -> pc s = Live ->
    sent s = eventLog (ev w).

(** The cleanup property as the spec words it: a call that has returned is
    not in the listener set. *)
Definition released_on_exit : Prop :=
  forall sched w c s err,
    run sched init = Some w ->
    streams w !! c = Some s -> pc s = Returned err ->
    c ∉ listeners (ev w).

(** The listener set and the calls agree: a channel is registered once,
    and a registered channel belongs to a call that is past its replay. *)
Definition well_registered (w : world) : Prop :=
  NoDup (listeners (ev w)) /\
  (forall c, c ∈ listeners (ev w) ->
     exists s, streams w !! c = Some s /\ forall p, pc s <> Replaying p).

(** The call on [c] has lost nothing: what it has sent, followed by what
    it still has to send, is the log, and it is registered once it is
    past its replay. *)
Definition in_sync (c : nat) (w : world) : Prop :=
  forall s, streams w !! c = Some s ->
    match pc s with
    | Replaying pending => sent s ++ pending = eventLog (ev w)
    | Live => sent s = eventLog (ev w) /\ c ∈ listeners (ev w)
    | Sending entry =>
        sent s ++ [entry] = eventLog (ev w) /\ c ∈ listeners (ev w)
    | Returned _ => sent s `prefix_of` eventLog (ev w)
    end.

End Handle.

(** A sequence of calls of [Handle], each at its time. *)
Definition Handle_all `{Constants} (calls : list (Z * proto_Event)) (w : world)
    : world :=
  foldl (fun w call => fst (Handle (fst call) (snd call) w)) w calls.

(** The constants spelled as the spec spells them, and events of each
    kind, for the examples. *)
Definition spelled : Constants :=
  {| Build := "Build"; Deploy := "Deploy"; Port := "Port";
     InProgress := "InProgress"; Complete := "Complete"; Failed := "Failed" |}.

Definition build_event `{Constants} (artifact status : string) : proto_Event :=
  {| EventType := Build; Artifact := artifact; Status := status;
     Err := ""; PortInfo := None |}.

Definition deploy_event `{Constants} (status : string) : proto_Event :=
  {| EventType := Deploy; Artifact := ""; Status := status;
     Err := ""; PortInfo := None |}.

Definition port_event `{Constants} (p : proto_PortInfo) : proto_Event :=
  {| EventType := Port; Artifact := ""; Status := "";
     Err := ""; PortInfo := Some p |}.

(** Interleavings of one subscriber, on channel 0, with a producer that
    reports a build.  In the first the producer runs once between the
    subscriber's reading of the log and its registration; in the second
    every entry finds the subscriber at line 50. *)
Definition started : proto_LogEntry :=
  {| Timestamp := 1; Type_ := "Build";
     Entry := "Build started for artifact artifact-a"; Error := "" |}.

Definition completed : proto_LogEntry :=
  {| Timestamp := 2; Type_ := "Build";
     Entry := "Build completed for artifact artifact-a"; Error := "" |}.

Definition racing_attach : list action :=
  [ Attach 0;
    Produce 1 (@build_event spelled "artifact-a" "InProgress");
    Advance 0;
    Produce 2 (@build_event spelled "artifact-a" "Complete");
    Advance 0 ].

Definition quiet_attach_example : list action :=
  [ Produce 1 (@build_event spelled "artifact-a" "InProgress");
    Attach 0;
    Advance 0;
    Advance 0;
    Produce 2 (@build_event spelled "artifact-a" "Complete");
    Advance 0 ].

(** A subscriber that has registered and received an entry, and whose
    remote end goes away before the entry is sent on. *)
Definition disconnected : list action :=
  [ Attach 0;
    Advance 0;
    Produce 1 (@build_event spelled "artifact-a" "InProgress");
    Disconnect 0 "EOF" ].

(** A subscriber that is still inside [stream.Send] with the first entry
    when the second is appended. *)
Definition slow_subscriber : list action :=
  [ Attach 0;
    Advance 0;
    Produce 1 (@build_event spelled "artifact-a" "InProgress");
    Produce 2 (@build_event spelled "artifact-a" "Complete");
    Advance 0 ].

(** An event of a kind the server does not know. *)
Definition test_event : proto_Event :=
  {| EventType := "Test"; Artifact := "artifact-a"; Status := "Complete";
     Err := "boom"; PortInfo := None |}.

(** *** newStatusServer (lines 101-123) *)

(** The sockets of the machine: the addresses that cannot be bound, each
    with the error [net.Listen] returns for it; the listeners this process
    holds open; the listeners a gRPC server is serving on; and every
    address [net.Listen] was called with. *)
Record net := {
  unavailable : gmap string go_error;
  open : list string;
  serving : list string;
  binds : list string
}.

(** [net.Listen("tcp", port)]; a listener is named by its address. *)
Definition net_Listen (port : string) (n : net) : net * result string :=
  match unavailable n !! port with
  | Some err =>
      ({| unavailable := unavailable n; open := open n;
          serving := serving n; binds := binds n ++ [port] |}, Failure err)
  | None =>
      ({| unavailable := <[port := "address already in use"]> (unavailable n);
          open := open n ++ [port];
          serving := serving n; binds := binds n ++ [port] |}, Ok port)
  end.

(** Lines 114-118: the goroutine that serves on [l]. *)
Definition go_Serve (l : string) (n : net) : net :=
  {| unavailable := unavailable n; open := open n;
     serving := serving n ++ [l]; binds := binds n |}.

(** The two closures that [newStatusServer] returns: [func() {}] and the
    one of lines 119-122. *)
Inductive stop :=
| stop_nothing
| stop_server (l : string).

(** Calling a stop function: [s.Stop()] then [l.Close()]. *)
Definition call_stop (f : stop) (n : net) : net :=
  match f with
  | stop_nothing => n
  | stop_server l =>
      {| unavailable := delete l (unavailable n);
         open := filter (fun a => a ≠ l) (open n);
         serving := filter (fun a => a ≠ l) (serving n);
         binds := binds n |}
  end.

Definition newStatusServer (port : string) (n : net)
    : net * (stop * option go_error) :=
  if String.eqb port "" then (n, (stop_nothing, None))
  else
    match net_Listen port n with
    | (n, Failure err) => (n, (stop_nothing, Some (wrap "creating listener" err)))
    | (n, Ok l) => (go_Serve l n, (stop_server l, None))
    end.

(** *** What a sequence of calls amounts to *)

Section Folds.
Context `{Constants}.

(** The status of the last Build event for [artifact] among [calls]. *)
Definition last_build (artifact : string) (calls : list (Z * proto_Event))
    : option string :=
  foldl (fun acc call =>
           if String.eqb (EventType (snd call)) Build
              && String.eqb (Artifact (snd call)) artifact
           then Some (Status (snd call)) else acc)
        None calls.

(** The status of the last Deploy event among [calls]. *)
Definition last_deploy (calls : list (Z * proto_Event)) : option string :=
  foldl (fun acc call =>
           if String.eqb (EventType (snd call)) Deploy
           then Some (Status (snd call)) else acc)
        None calls.

(** The descriptors of the Port events among [calls], in order. *)
Definition ports_of (calls : list (Z * proto_Event))
    : list (option proto_PortInfo) :=
  map (fun call => PortInfo (snd call))
      (List.filter (fun call => String.eqb (EventType (snd call)) Port) calls).

(** The calls of [Handle] in a schedule, in order. *)
Fixpoint produces (sched : list action) : list (Z * proto_Event) :=
  match sched with
  | [] => []
  | Produce now event :: sched => (now, event) :: produces sched
  | _ :: sched => produces sched
  end.

(** What the call on [c] has been sent, followed by what it still has to
    replay, is part of the log and in the order of the log. *)
Definition in_order (c : nat) (w : world) : Prop :=
  forall s, streams w !! c = Some s ->
    match pc s with
    | Replaying pending => (sent s ++ pending) `sublist_of` eventLog (ev w)
    | Sending entry => (sent s ++ [entry]) `sublist_of` eventLog (ev w)
    | _ => sent s `sublist_of` eventLog (ev w)
    end.

End Folds.

(** A machine on which port 50051 is taken, for the examples. *)
Definition busy_net : net :=
  {| unavailable := {[ ":50051" := "bind: address already in use" ]};
     open := []; serving := []; binds := [] |}.

End Event.

(** * Properties of the git-commit tagger *)

Module TagProofs.
Import Tag.

Lemma supported_alphabet (c : ascii) :
  supported c = true <-> In c (list_ascii_of_string alphabet).
Proof.
  assert (Hb : supported c =
               existsb (Ascii.eqb c) (list_ascii_of_string alphabet)).
  { destruct c as [[] [] [] [] [] [] [] []]; vm_compute; reflexivity. }
  rewrite Hb, existsb_exists. split.
  - intros (x & Hin & Heq). apply Ascii.eqb_eq in Heq. now subst.
  - intros Hin. exists c. split; [exact Hin | apply Ascii.eqb_refl].
Qed.

Lemma all_bytes_In (p : ascii -> bool) (s : string) :
  all_bytes p s = true <->
  forall c, In c (list_ascii_of_string s) -> p c = true.
Proof.
  induction s as [|a s IH]; simpl.
  - split; [intros _ c [] | reflexivity].
  - rewrite andb_true_iff, IH. split.
    + intros [Ha Hs] c [<-|Hc]; auto.
    + intros Hall. split; [apply Hall; now left | intros c Hc; apply Hall; now right].
Qed.

Lemma all_bytes_app (p : ascii -> bool) (s t : string) :
  all_bytes p (s +:+ t) = all_bytes p s && all_bytes p t.
Proof.
  induction s as [|a s IH]; simpl; [reflexivity|].
  now rewrite IH, andb_assoc.
Qed.

Lemma all_bytes_repeat (p : ascii -> bool) (c : ascii) (n : nat) :
  p c = true -> all_bytes p (repeat_byte c n) = true.
Proof. intros Hc. induction n as [|n IH]; simpl; [reflexivity | now rewrite Hc]. Qed.

Lemma length_repeat_byte (c : ascii) (n : nat) :
  String.length (repeat_byte c n) = n.
Proof. induction n; simpl; congruence. Qed.

(** Line 103 leaves supported characters only, whatever is still to skip. *)
Lemma replace_unsupported_supported (s : string) :
  forall skip, all_bytes supported (replace_unsupported skip s) = true.
Proof.
  induction s as [|c s IH]; intros skip; simpl; [reflexivity|].
  destruct skip as [|k]; [|apply IH].
  destruct (supported c) eqn:Hc; simpl; [rewrite Hc|]; apply IH.
Qed.

(** What [span] returns: the two parts make up the string, the first
    satisfies [p] throughout and the second does not start with a
    character that satisfies [p]. *)
Lemma span_spec (p : ascii -> bool) (s : string) :
  forall a b, span p s = (a, b) ->
    s = a +:+ b /\ all_bytes p a = true /\
    (forall c rest, b = String c rest -> p c = false).
Proof.
  induction s as [|c s IH]; simpl; intros a b Hsp.
  - inversion Hsp; subst. repeat split; intros; discriminate.
  - destruct (p c) eqn:Hc.
    + destruct (span p s) as [a' b'] eqn:Hs. inversion Hsp; subst.
      destruct (IH a' b eq_refl) as (-> & Ha & Hb).
      repeat split; simpl; [now rewrite Hc | exact Hb].
    + inversion Hsp; subst. repeat split.
      intros c' rest [= -> ->]. exact Hc.
Qed.

(** The first part of a [span] starts as the string does. *)
Lemma span_head (p : ascii -> bool) (s : string) :
  forall c rest, fst (span p s) = String c rest ->
    exists rest', s = String c rest'.
Proof.
  destruct s as [|a s]; simpl; intros c rest Hf; [discriminate|].
  destruct (p a); [|discriminate].
  destruct (span p s) as [x y]. simpl in Hf. inversion Hf; subst. eauto.
Qed.

Lemma substring_0_length (n : nat) :
  forall s, String.length (substring 0 n s) <= n.
Proof.
  induction n as [|n IH]; intros [|c s]; simpl; try lia.
  specialize (IH s). lia.
Qed.

Lemma substring_0_all_bytes (p : ascii -> bool) (n : nat) :
  forall s, all_bytes p s = true -> all_bytes p (substring 0 n s) = true.
Proof.
  induction n as [|n IH]; intros [|c s]; simpl; try reflexivity.
  rewrite !andb_true_iff. intros [Hc Hs]. auto.
Qed.

Lemma substring_0_head (n : nat) (s : string) :
  forall c rest, substring 0 n s = String c rest ->
    exists rest', s = String c rest'.
Proof.
  destruct n as [|n]; destruct s as [|a s]; simpl; intros c rest Hs;
    try discriminate.
  inversion Hs; subst. eauto.
Qed.

(** Lines 106-107 on a string of supported characters: the result is made
    of supported characters and starts with neither [-] nor [.]. *)
Lemma underscore_prefix (sanitized g1 g2 : string) :
  all_bytes supported sanitized = true ->
  prefixSuffix sanitized = (g1, g2) ->
  let r := repeat_byte "_" (String.length g1) +:+ g2 in
  all_bytes supported r = true /\
  (forall c rest, r = String c rest -> dash_or_dot c = false).
Proof.
  unfold prefixSuffix. intros Hsup Hps.
  destruct (span dash_or_dot sanitized) as [a after] eqn:Ha.
  inversion Hps; subst; clear Hps.
  destruct (span_spec _ _ _ _ Ha) as (-> & _ & Hafter).
  rewrite all_bytes_app, andb_true_iff in Hsup. destruct Hsup as [_ Hsup].
  destruct (span not_newline after) as [g2 tl] eqn:Hg. simpl.
  destruct (span_spec _ _ _ _ Hg) as (Heq & _ & _).
  assert (Hg2 : all_bytes supported g2 = true).
  { rewrite Heq, all_bytes_app, andb_true_iff in Hsup. tauto. }
  split.
  - rewrite all_bytes_app, Hg2, all_bytes_repeat; reflexivity.
  - intros c rest Hr. destruct g1 as [|x g1];
      cbv [String.append repeat_byte String.length] in Hr.
    + apply (Hafter c (rest +:+ tl)). now rewrite Heq, Hr.
    + inversion Hr; subst. reflexivity.
Qed.

Lemma substring_0_short (n : nat) :
  forall s, String.length s <= n -> substring 0 n s = s.
Proof.
  induction n as [|n IH]; intros [|c s]; simpl; intros Hlen;
    try reflexivity; try lia.
  f_equal. apply IH. lia.
Qed.

(** On ASCII bytes line 103 works byte by byte. *)
Lemma replace_unsupported_ascii (tag : string) :
  all_bytes (between 0 127) tag = true ->
  replace_unsupported 0 tag =
  map_bytes (fun c => if supported c then c else "_"%char) tag.
Proof.
  induction tag as [|c tag IH]; simpl; [reflexivity|].
  rewrite andb_true_iff. intros [Hc Htag].
  destruct (supported c); [now rewrite IH|].
  unfold rune_width. rewrite Hc. simpl. now rewrite IH.
Qed.

(** The dot of line 106 matches every supported character. *)
Lemma span_not_newline_supported (s : string) :
  all_bytes supported s = true -> span not_newline s = (s, EmptyString).
Proof.
  induction s as [|c s IH]; simpl; [reflexivity|].
  rewrite andb_true_iff. intros [Hc Hs]. rewrite (IH Hs).
  assert (Hnl : not_newline c = true).
  { destruct (Ascii.eqb_spec c "010") as [->|Hne]; [discriminate Hc|].
    unfold not_newline. now apply Ascii.eqb_neq in Hne as ->. }
  now rewrite Hnl.
Qed.

(** Lines 106-107 replace the leading run and leave the rest. *)
Lemma underscore_leading_span (s : string) :
  forall g1 after, span dash_or_dot s = (g1, after) ->
    repeat_byte "_" (String.length g1) +:+ after = underscore_leading s.
Proof.
  induction s as [|c s IH]; simpl; intros g1 after Hsp.
  - now inversion Hsp.
  - destruct (dash_or_dot c).
    + destruct (span dash_or_dot s) as [a b]. inversion Hsp; subst.
      cbv [String.length repeat_byte String.append].
      f_equal. exact (IH a after eq_refl).
    + now inversion Hsp.
Qed.

Lemma sanitizeTag_ascii (tag : string) :
  all_bytes (between 0 127) tag = true ->
  sanitizeTag tag = sanitizeTag_bytewise tag.
Proof.
  intros Hascii. unfold sanitizeTag, sanitizeTag_bytewise, prefixSuffix.
  pose proof (replace_unsupported_supported tag 0) as Hsup.
  rewrite (replace_unsupported_ascii tag Hascii) in *.
  set (t := map_bytes _ tag) in *.
  destruct (span dash_or_dot t) as [g1 after] eqn:Hsp.
  destruct (span_spec _ _ _ _ Hsp) as (Ht & _ & _).
  rewrite Ht, all_bytes_app, andb_true_iff in Hsup.
  rewrite (span_not_newline_supported after (proj2 Hsup)). simpl fst.
  rewrite (underscore_leading_span t g1 after Hsp).
  destruct (Nat.ltb_spec 128 (String.length (underscore_leading t)));
    [reflexivity | now rewrite substring_0_short].
Qed.

(** A supported character is an ASCII byte, and a rune of one byte. *)
Lemma supported_ascii (c : ascii) :
  supported c = true -> between 0 127 c = true.
Proof.
  destruct c as [[] [] [] [] [] [] [] []]; vm_compute; intros Hc;
    first [reflexivity | discriminate Hc].
Qed.

Lemma rune_width_positive (c : ascii) (rest : string) :
  exists w, rune_width (String c rest) = S w.
Proof.
  unfold rune_width.
  repeat match goal with
  | |- context [if ?b then _ else _] => destruct b
  | |- context [match ?o with Some _ => _ | None => _ end] => destruct o
  end; eauto.
Qed.

Lemma string_drop_empty (n : nat) : string_drop n EmptyString = EmptyString.
Proof. now destruct n. Qed.

Lemma length_string_drop (n : nat) :
  forall s, String.length (string_drop n s) <= String.length s.
Proof.
  induction n as [|n IH]; intros [|c s]; simpl; try lia.
  specialize (IH s). lia.
Qed.

(** The bytes that line 103 skips are the rest of the rune replaced. *)
Lemma replace_unsupported_skip (s : string) :
  forall skip,
    replace_unsupported skip s = replace_unsupported 0 (string_drop skip s).
Proof.
  induction s as [|c s IH]; intros [|k]; try reflexivity.
  simpl. apply IH.
Qed.

Lemma replace_rune_unsupported (c : ascii) (r : string) :
  supported c = false -> replace_rune (String c r) = "_"%char.
Proof. intros Hc. destruct r; simpl; [now rewrite Hc | reflexivity]. Qed.

(** Line 103 rune by rune. *)
Lemma replace_unsupported_runes (fuel : nat) :
  forall s, String.length s <= fuel ->
    replace_unsupported 0 s =
    string_of_list_ascii (map replace_rune (runes_upto fuel s)).
Proof.
  induction fuel as [|fuel IH]; intros [|c rest] Hlen; simpl in Hlen;
    try reflexivity; try lia.
  cbn [runes_upto map string_of_list_ascii replace_unsupported].
  destruct (supported c) eqn:Hc.
  - assert (Hw : rune_width (String c rest) = 1).
    { unfold rune_width. now rewrite (supported_ascii c Hc). }
    rewrite Hw. cbn [substring string_drop].
    assert (H0 : substring 0 0 rest = EmptyString) by now destruct rest.
    rewrite H0. cbn [replace_rune]. rewrite Hc. f_equal.
    apply IH. lia.
  - destruct (rune_width_positive c rest) as [w Hw]. rewrite Hw.
    cbn [substring string_drop]. rewrite (replace_rune_unsupported _ _ Hc).
    f_equal. replace (S w - 1) with w by lia.
    rewrite replace_unsupported_skip. apply IH.
    pose proof (length_string_drop w rest). lia.
Qed.

(** Lines 106-111 on the string that line 103 returns. *)
Lemma sanitizeTag_after_replace (tag : string) :
  sanitizeTag tag =
  substring 0 128 (underscore_leading (replace_unsupported 0 tag)).
Proof.
  unfold sanitizeTag, prefixSuffix.
  pose proof (replace_unsupported_supported tag 0) as Hsup.
  set (t := replace_unsupported 0 tag) in *.
  destruct (span dash_or_dot t) as [g1 after] eqn:Hsp.
  destruct (span_spec _ _ _ _ Hsp) as (Ht & _ & _).
  rewrite Ht, all_bytes_app, andb_true_iff in Hsup.
  rewrite (span_not_newline_supported after (proj2 Hsup)). simpl fst.
  rewrite (underscore_leading_span t g1 after Hsp).
  destruct (Nat.ltb_spec 128 (String.length (underscore_leading t)));
    [reflexivity | now rewrite substring_0_short].
Qed.

Lemma sanitizeTag_runes (tag : string) :
  sanitizeTag tag = sanitizeTag_runewise tag.
Proof.
  rewrite sanitizeTag_after_replace. unfold sanitizeTag_runewise, runes.
  now rewrite (replace_unsupported_runes (String.length tag) tag).
Qed.

(** C9. For every input string, [sanitizeTag] returns a string of at most
    128 bytes, each of them one of [a-z], [A-Z], [0-9], [-], [.] and [_],
    and the first of them neither [-] nor [.].  It is, for every input
    string, the tag with every rune that is not a supported character
    replaced by one [_], then every leading [-] or [.] replaced by [_],
    cut to its first 128 bytes; on a tag of ASCII characters the
    replacement is byte for byte. *)
Theorem sanitizeTag_docker_tag (tag : string) :
  String.length (sanitizeTag tag) <= 128 /\
  (forall c, In c (list_ascii_of_string (sanitizeTag tag)) ->
             In c (list_ascii_of_string alphabet)) /\
  (forall c rest, sanitizeTag tag = String c rest ->
                  c <> "-"%char /\ c <> "."%char) /\
  sanitizeTag tag = sanitizeTag_runewise tag /\
  (all_bytes (between 0 127) tag = true ->
   sanitizeTag tag = sanitizeTag_bytewise tag).
Proof.
  cut (String.length (sanitizeTag tag) <= 128 /\
       (forall c, In c (list_ascii_of_string (sanitizeTag tag)) ->
                  In c (list_ascii_of_string alphabet)) /\
       (forall c rest, sanitizeTag tag = String c rest ->
                       c <> "-"%char /\ c <> "."%char)).
  { intros (Hlen & Hin & Hhead). repeat split; try assumption.
    - now apply (Hhead c rest).
    - now apply (Hhead c rest).
    - apply sanitizeTag_runes.
    - apply sanitizeTag_ascii. }
  unfold sanitizeTag.
  pose proof (replace_unsupported_supported tag 0) as Hsup.
  destruct (prefixSuffix (replace_unsupported 0 tag)) as [g1 g2] eqn:Hps.
  destruct (underscore_prefix _ _ _ Hsup Hps) as [Hall Hhead].
  set (r := repeat_byte "_" (String.length g1) +:+ g2) in *.
  assert (Hnot : forall c, dash_or_dot c = false ->
                           c <> "-"%char /\ c <> "."%char).
  { intros c Hc; split; intros ->; discriminate Hc. }
  destruct (Nat.ltb_spec 128 (String.length r)) as [Hlong|Hshort].
  - split; [apply substring_0_length|]. split.
    + intros c Hc. apply supported_alphabet. revert c Hc.
      apply all_bytes_In, substring_0_all_bytes, Hall.
    + intros c rest Hs. apply Hnot.
      destruct (substring_0_head _ _ _ _ Hs) as [rest' Hr]. eauto.
  - split; [exact Hshort|]. split.
    + intros c Hc. apply supported_alphabet. revert c Hc.
      now apply all_bytes_In.
    + intros c rest Hs. apply Hnot. eauto.
Qed.

Lemma sanitizeTag_docker_tag_witness :
  String.length (sanitizeTag "-.v1/0") <= 128 /\
  In "_"%char (list_ascii_of_string alphabet) /\
  "_"%char <> "-"%char /\ "_"%char <> "."%char.
Proof.
  destruct (sanitizeTag_docker_tag "-.v1/0") as (Hlen & Hin & Hhead & _).
  split; [exact Hlen|]. split.
  - apply Hin. left. reflexivity.
  - apply (Hhead "_"%char "_v1_0"). reflexivity.
Defined.

Example sanitizeTag_plain : sanitizeTag "v1.0.0" = "v1.0.0".
Proof. reflexivity. Qed.

Example sanitizeTag_leading : sanitizeTag "--.v1/0+0 x" = "___v1_0_0_x".
Proof. reflexivity. Qed.

(** A rune of several bytes becomes one [_]: here U+20AC, three bytes. *)
Example sanitizeTag_rune :
  sanitizeTag (String "226" (String "130" (String "172" "-.a"))) = "_-.a".
Proof. reflexivity. Qed.

(** The euro sign, three bytes, becomes one [_]; read byte by byte it
    would become three. *)
Example sanitizeTag_runewise_euro :
  sanitizeTag_runewise
    (String "226" (String "130" (String "172" "v1"))) = "_v1" /\
  sanitizeTag_bytewise
    (String "226" (String "130" (String "172" "v1"))) = "___v1".
Proof. split; reflexivity. Qed.

Example sanitizeTag_bytewise_leading :
  sanitizeTag_bytewise "--.v1/0+0 x" = "___v1_0_0_x".
Proof. reflexivity. Qed.

Example sanitizeTag_long :
  String.length (sanitizeTag (repeat_byte "-" 200)) = 128.
Proof. reflexivity. Qed.

Section Git.
Context `{Sys}.

(** C10. When [git status] reports changes the name is the image name, a
    colon, the prefix, the reference as git printed it and [-dirty];
    [sanitizeTag] is applied to the reference in the clean case only, and
    to the prefix in neither. *)
Theorem GenerateFullyQualifiedImageName_sanitizes_clean_only
    (c : GitCommit) (workingDir imageName ref changes : string) :
  makeGitTag c workingDir = Ok ref ->
  runGit workingDir ["status"; "."; "--porcelain"] = Ok changes ->
  (changes <> "" ->
   GenerateFullyQualifiedImageName c workingDir imageName =
     Ok (imageName +:+ ":" +:+ prefix c +:+ ref +:+ "-dirty")) /\
  (changes = "" ->
   GenerateFullyQualifiedImageName c workingDir imageName =
     Ok (imageName +:+ ":" +:+ prefix c +:+ sanitizeTag ref)).
Proof.
  intros Href Hst. unfold GenerateFullyQualifiedImageName.
  rewrite Href, Hst. split.
  - intros Hne. destruct changes as [|a changes]; [congruence | reflexivity].
  - intros ->. reflexivity.
Qed.

End Git.

(** A dirty tree: neither the [+] of the reference nor the [/] of the
    prefix is replaced. *)
Lemma GenerateFullyQualifiedImageName_dirty_witness :
  @GenerateFullyQualifiedImageName
    (scripted "v1.0+build
" " M main.go
")
    {| prefix := "rel/"; variant := tags |} "/src" "gcr.io/app"
  = Ok "gcr.io/app:rel/v1.0+build-dirty".
Proof.
  refine (proj1 (@GenerateFullyQualifiedImageName_sanitizes_clean_only
                   (scripted _ _) _ "/src" "gcr.io/app"
                   "v1.0+build" "M main.go" _ _) _).
  - reflexivity.
  - reflexivity.
  - discriminate.
Defined.

(** A clean tree: the reference is sanitized, the prefix is not. *)
Example GenerateFullyQualifiedImageName_clean :
  @GenerateFullyQualifiedImageName
    (scripted "v1.0+build
" "")
    {| prefix := "rel/"; variant := tags |} "/src" "gcr.io/app"
  = Ok "gcr.io/app:rel/v1.0_build".
Proof. reflexivity. Qed.

(** ** More on sanitizeTag *)

Lemma replace_unsupported_fixed (s : string) :
  all_bytes supported s = true -> replace_unsupported 0 s = s.
Proof.
  induction s as [|c s IH]; simpl; [reflexivity|].
  rewrite andb_true_iff. intros [Hc Hs]. now rewrite Hc, IH.
Qed.

Lemma replace_unsupported_length (s : string) :
  forall skip,
    String.length (replace_unsupported skip s) <= String.length s.
Proof.
  induction s as [|c s IH]; intros skip; simpl; [lia|].
  destruct skip as [|k].
  - destruct (supported c); simpl.
    + specialize (IH 0). lia.
    + match goal with |- context [replace_unsupported ?k s] =>
        specialize (IH k) end. lia.
  - specialize (IH k). lia.
Qed.

Lemma length_append (s t : string) :
  String.length (s +:+ t) = String.length s + String.length t.
Proof.
  induction s as [|c s IH]; [reflexivity|].
  change (S (String.length (s +:+ t)) = S (String.length s + String.length t)).
  now rewrite IH.
Qed.

Lemma length_map_bytes (f : ascii -> ascii) (s : string) :
  String.length (map_bytes f s) = String.length s.
Proof. induction s as [|c s IH]; simpl; congruence. Qed.

Lemma length_underscore_leading (s : string) :
  String.length (underscore_leading s) = String.length s.
Proof.
  induction s as [|c s IH]; simpl; [reflexivity|].
  destruct (dash_or_dot c); simpl; congruence.
Qed.

Lemma length_substring_0 (n : nat) :
  forall s, String.length (substring 0 n s) = Nat.min n (String.length s).
Proof.
  induction n as [|n IH]; intros [|c s]; simpl; try reflexivity.
  now rewrite IH.
Qed.

(** The string that line 107 builds, before line 110 cuts it. *)
Lemma sanitizeTag_uncut (tag : string) :
  exists r,
    String.length r = String.length (replace_unsupported 0 tag) /\
    sanitizeTag tag =
      (if (128 <? String.length r)%nat then substring 0 128 r else r) /\
    sanitizeTag_logged tag =
      (if (128 <? String.length r)%nat then (substring 0 128 r, None)
       else if negb (String.eqb tag r) then (r, Some (r, tag))
       else (r, None)).
Proof.
  unfold sanitizeTag, sanitizeTag_logged, prefixSuffix.
  pose proof (replace_unsupported_supported tag 0) as Hsup.
  destruct (span dash_or_dot (replace_unsupported 0 tag)) as [g1 after] eqn:Ha.
  destruct (span_spec _ _ _ _ Ha) as (Heq & _ & _).
  rewrite Heq, all_bytes_app, andb_true_iff in Hsup.
  rewrite (span_not_newline_supported after (proj2 Hsup)). simpl fst.
  exists (repeat_byte "_" (String.length g1) +:+ after).
  split; [|split; reflexivity].
  now rewrite Heq, !length_append, length_repeat_byte.
Qed.

Lemma sanitizeTag_fixed (tag : string) :
  well_formed_tag tag = true -> sanitizeTag tag = tag.
Proof.
  unfold well_formed_tag. rewrite !andb_true_iff.
  intros [[Hlen Hsup] Hhead]. apply Nat.leb_le in Hlen.
  unfold sanitizeTag, prefixSuffix.
  rewrite (replace_unsupported_fixed tag Hsup).
  assert (Hsp : span dash_or_dot tag = (EmptyString, tag)).
  { destruct tag as [|c tag]; simpl; [reflexivity|].
    apply negb_true_iff in Hhead. now rewrite Hhead. }
  rewrite Hsp, (span_not_newline_supported tag Hsup).
  simpl fst.
  change (repeat_byte "_" (String.length EmptyString) +:+ tag) with tag.
  destruct (Nat.ltb_spec 128 (String.length tag)); [lia | reflexivity].
Qed.

Lemma sanitizeTag_well_formed (tag : string) :
  well_formed_tag (sanitizeTag tag) = true.
Proof.
  unfold sanitizeTag.
  pose proof (replace_unsupported_supported tag 0) as Hsup.
  destruct (prefixSuffix (replace_unsupported 0 tag)) as [g1 g2] eqn:Hps.
  destruct (underscore_prefix _ _ _ Hsup Hps) as [Hall Hhead].
  set (r := repeat_byte "_" (String.length g1) +:+ g2) in *.
  unfold well_formed_tag. rewrite !andb_true_iff.
  destruct (Nat.ltb_spec 128 (String.length r)) as [Hlong|Hshort].
  - split; [split|].
    + apply Nat.leb_le, substring_0_length.
    + now apply substring_0_all_bytes.
    + destruct (substring 0 128 r) as [|c rest] eqn:Hs; [reflexivity|].
      destruct (substring_0_head _ _ _ _ Hs) as [rest' Hr].
      apply negb_true_iff. eauto.
  - split; [split|].
    + now apply Nat.leb_le.
    + exact Hall.
    + destruct r as [|c rest] eqn:Hr; [reflexivity|].
      apply negb_true_iff. eauto.
Qed.

(** X1. A tag of at most 128 supported characters that starts with
    neither [-] nor [.] is returned as it is. *)
Theorem sanitizeTag_keeps_well_formed (tag : string) :
  well_formed_tag tag = true -> sanitizeTag tag = tag.
Proof. apply sanitizeTag_fixed. Qed.

Lemma sanitizeTag_keeps_well_formed_witness :
  sanitizeTag "v1.2.3-rc_1" = "v1.2.3-rc_1".
Proof. apply sanitizeTag_keeps_well_formed. reflexivity. Defined.

(** X2. Sanitizing a sanitized tag changes nothing. *)
Theorem sanitizeTag_idempotent (tag : string) :
  sanitizeTag (sanitizeTag tag) = sanitizeTag tag.
Proof. apply sanitizeTag_fixed, sanitizeTag_well_formed. Qed.

(** X3. The sanitized tag is never longer than the tag, and for a tag of
    ASCII characters it has the length of the tag, or 128 if that is
    less. *)
Theorem sanitizeTag_length (tag : string) :
  String.length (sanitizeTag tag) <= String.length tag /\
  (is_ascii tag = true ->
   String.length (sanitizeTag tag) = Nat.min 128 (String.length tag)).
Proof.
  split.
  - destruct (sanitizeTag_uncut tag) as (r & Hlen & -> & _).
    pose proof (replace_unsupported_length tag 0) as Hle.
    destruct (128 <? String.length r)%nat; [|lia].
    rewrite length_substring_0. lia.
  - intros Hascii. rewrite (sanitizeTag_ascii tag Hascii).
    unfold sanitizeTag_bytewise.
    now rewrite length_substring_0, length_underscore_leading,
      length_map_bytes.
Qed.

Lemma sanitizeTag_length_witness :
  String.length (sanitizeTag "release/2019 (final)") = 20.
Proof.
  apply (proj2 (sanitizeTag_length "release/2019 (final)")). reflexivity.
Defined.

(** X4. When [sanitizeTag] warns, the warning names the string returned
    and the tag, and the two differ; a well-formed tag gets no warning. *)
Theorem sanitizeTag_warning (tag : string) :
  fst (sanitizeTag_logged tag) = sanitizeTag tag /\
  (forall a b, snd (sanitizeTag_logged tag) = Some (a, b) ->
     a = sanitizeTag tag /\ b = tag /\ sanitizeTag tag <> tag) /\
  (well_formed_tag tag = true -> snd (sanitizeTag_logged tag) = None).
Proof.
  destruct (sanitizeTag_uncut tag) as (r & _ & Hs & Hl).
  split; [|split].
  - rewrite Hl, Hs. destruct (128 <? String.length r)%nat; [reflexivity|].
    now destruct (negb (tag =? r)%string).
  - intros a b. rewrite Hl, Hs.
    destruct (128 <? String.length r)%nat; [discriminate|].
    destruct (String.eqb_spec tag r) as [->|Hne]; simpl; [discriminate|].
    intros [= <- <-]. repeat split. congruence.
  - intros Hwf. pose proof (sanitizeTag_fixed tag Hwf) as Hfix.
    rewrite Hl. rewrite Hs in Hfix. revert Hfix.
    destruct (Nat.ltb_spec 128 (String.length r)) as [Hlong|Hshort];
      [reflexivity|].
    intros ->. now rewrite String.eqb_refl.
Qed.

Lemma sanitizeTag_warning_witness :
  snd (sanitizeTag_logged "v1.2.3-rc_1") = None /\
  sanitizeTag "v1+build" <> "v1+build".
Proof.
  split.
  - apply (sanitizeTag_warning "v1.2.3-rc_1"). reflexivity.
  - apply (proj1 (proj2 (sanitizeTag_warning "v1+build")) "v1_build" "v1+build").
    reflexivity.
Defined.

(** X5. A tag of more than 128 ASCII characters is cut to 128 bytes, and
    so changed, without a warning: line 111 returns before line 114. *)
Theorem sanitizeTag_cuts_silently (tag : string) :
  is_ascii tag = true -> 128 < String.length tag ->
  snd (sanitizeTag_logged tag) = None /\
  String.length (sanitizeTag tag) = 128 /\
  sanitizeTag tag <> tag.
Proof.
  intros Hascii Hlong.
  assert (Hlen : String.length (sanitizeTag tag) = 128).
  { rewrite (sanitizeTag_ascii tag Hascii). unfold sanitizeTag_bytewise.
    rewrite length_substring_0, length_underscore_leading, length_map_bytes.
    lia. }
  split; [|split; [exact Hlen|]].
  - destruct (sanitizeTag_uncut tag) as (r & Hr & _ & ->).
    rewrite (replace_unsupported_ascii tag Hascii), length_map_bytes in Hr.
    destruct (Nat.ltb_spec 128 (String.length r)); [reflexivity | lia].
  - intros Heq. rewrite Heq in Hlen. lia.
Qed.

Lemma sanitizeTag_cuts_silently_witness :
  snd (sanitizeTag_logged (repeat_byte "a" 130)) = None /\
  String.length (sanitizeTag (repeat_byte "a" 130)) = 128.
Proof.
  destruct (sanitizeTag_cuts_silently (repeat_byte "a" 130))
    as (Hw & Hl & _); [reflexivity | vm_compute; lia | ].
  split; assumption.
Defined.

(** ** NewGitCommit *)

(** X6. [NewGitCommit] returns a tagger with the prefix it was given and
    one of the five variants [makeGitTag] has a case for, or an error
    that quotes the variant as it was given. *)
Theorem NewGitCommit_result
    (unicode_ToLower : string -> string) (prefix taggerVariant : string) :
  (forall c, NewGitCommit unicode_ToLower prefix taggerVariant = Ok c ->
     Tag.prefix c = prefix /\ known_variant (variant c) = true) /\
  (forall e, NewGitCommit unicode_ToLower prefix taggerVariant = Failure e ->
     e = taggerVariant +:+ " is not a valid git tagger variant").
Proof.
  unfold NewGitCommit.
  repeat match goal with
  | |- context [if ?b then _ else _] => destruct b
  end; split; intros x [= <-]; now split.
Qed.

Lemma NewGitCommit_result_witness :
  NewGitCommit (fun s => s) "v" "AbbrevTreeSha"
    = Ok {| prefix := "v"; variant := abbrevTreeSha |} /\
  (exists e, NewGitCommit (fun s => s) "v" "sha256" = Failure e /\
             e = "sha256 is not a valid git tagger variant").
Proof.
  destruct (NewGitCommit_result (fun s => s) "v" "AbbrevTreeSha") as [Hok _].
  destruct (NewGitCommit_result (fun s => s) "v" "sha256") as [_ Hfail].
  split.
  - destruct (Hok {| prefix := "v"; variant := abbrevTreeSha |} eq_refl).
    reflexivity.
  - exists "sha256 is not a valid git tagger variant".
    split; [reflexivity|]. apply Hfail. reflexivity.
Defined.

(** X7. [NewGitCommit] does not tell apart two spellings of a variant
    that differ in the case of ASCII letters. *)
Theorem NewGitCommit_ignores_case
    (unicode_ToLower : string -> string) (prefix v w : string) :
  is_ascii v = true -> is_ascii w = true ->
  map_bytes lower_byte v = map_bytes lower_byte w ->
  forall c,
    NewGitCommit unicode_ToLower prefix v = Ok c <->
    NewGitCommit unicode_ToLower prefix w = Ok c.
Proof.
  intros Hv Hw Hlow c. unfold NewGitCommit, ToLower.
  rewrite Hv, Hw, Hlow.
  repeat match goal with
  | |- context [if ?b then _ else _] => destruct b
  end; try reflexivity.
  split; discriminate.
Qed.

Lemma NewGitCommit_ignores_case_witness :
  NewGitCommit (fun s => s) "v" "COMMITSHA"
    = Ok {| prefix := "v"; variant := commitSha |}.
Proof.
  apply (NewGitCommit_ignores_case (fun s => s) "v" "commitSha" "COMMITSHA");
    reflexivity.
Defined.

Section MoreGit.
Context `{Sys}.

(** X8. For a tagger whose variant is none of the five, [makeGitTag]
    fails with the error of line 143 whatever git would answer, and
    [GenerateFullyQualifiedImageName] returns it wrapped. *)
Theorem makeGitTag_unknown_variant
    (c : GitCommit) (workingDir imageName : string) :
  known_variant (variant c) = false ->
  makeGitTag c workingDir =
    Failure "invalid git tag variant: defaulting to 'dirty'" /\
  GenerateFullyQualifiedImageName c workingDir imageName =
    Failure "unable to find git commit: invalid git tag variant: defaulting to 'dirty'".
Proof.
  unfold known_variant. rewrite !orb_false_iff.
  intros [[[[Ht Hc] Hac] Hts] Hats].
  assert (Hm : makeGitTag c workingDir =
               Failure "invalid git tag variant: defaulting to 'dirty'").
  { unfold makeGitTag. now rewrite Ht, Hc, Hac, Hts, Hats. }
  split; [exact Hm|].
  unfold GenerateFullyQualifiedImageName. now rewrite Hm.
Qed.

(** X9. [GenerateFullyQualifiedImageName] wraps a failure to find the
    reference and a failure of [git status] each in its own message, and
    returns a name only when both commands succeeded: the image name, a
    colon, the prefix and a tag. *)
Theorem GenerateFullyQualifiedImageName_errors
    (c : GitCommit) (workingDir imageName : string) :
  (forall err, makeGitTag c workingDir = Failure err ->
     GenerateFullyQualifiedImageName c workingDir imageName =
       Failure ("unable to find git commit: " +:+ err)) /\
  (forall ref err,
     makeGitTag c workingDir = Ok ref ->
     runGit workingDir ["status"; "."; "--porcelain"] = Failure err ->
     GenerateFullyQualifiedImageName c workingDir imageName =
       Failure ("getting git status: " +:+ err)) /\
  (forall name,
     GenerateFullyQualifiedImageName c workingDir imageName = Ok name ->
     exists ref changes tag,
       makeGitTag c workingDir = Ok ref /\
       runGit workingDir ["status"; "."; "--porcelain"] = Ok changes /\
       name = imageName +:+ ":" +:+ prefix c +:+ tag).
Proof.
  unfold GenerateFullyQualifiedImageName. split; [|split].
  - intros err ->. reflexivity.
  - intros ref err -> ->. reflexivity.
  - intros name.
    destruct (makeGitTag c workingDir) as [ref|e]; [|discriminate].
    destruct (runGit workingDir _) as [changes|e]; [|discriminate].
    destruct (0 <? String.length changes)%nat; intros [= <-].
    + exists ref, changes, (ref +:+ "-dirty"). repeat split.
    + exists ref, changes, (sanitizeTag ref). repeat split.
Qed.

(** X10. On a clean tree the name ends, after the prefix, in a
    well-formed tag, whatever reference git printed. *)
Theorem GenerateFullyQualifiedImageName_clean_tag
    (c : GitCommit) (workingDir imageName ref : string) :
  makeGitTag c workingDir = Ok ref ->
  runGit workingDir ["status"; "."; "--porcelain"] = Ok "" ->
  exists tag,
    GenerateFullyQualifiedImageName c workingDir imageName =
      Ok (imageName +:+ ":" +:+ prefix c +:+ tag) /\
    well_formed_tag tag = true.
Proof.
  intros Href Hst. exists (sanitizeTag ref). split.
  - unfold GenerateFullyQualifiedImageName. now rewrite Href, Hst.
  - apply sanitizeTag_well_formed.
Qed.

End MoreGit.

Lemma makeGitTag_unknown_variant_witness :
  @GenerateFullyQualifiedImageName (scripted "v1" "")
    {| prefix := ""; variant := 7 |} "/src" "gcr.io/app"
  = Failure "unable to find git commit: invalid git tag variant: defaulting to 'dirty'".
Proof.
  apply (@makeGitTag_unknown_variant (scripted "v1" "")
           {| prefix := ""; variant := 7 |} "/src" "gcr.io/app").
  reflexivity.
Defined.

Lemma GenerateFullyQualifiedImageName_errors_witness :
  @GenerateFullyQualifiedImageName (scripted "v1" "")
    {| prefix := ""; variant := commitSha |} "/src" "gcr.io/app"
  = Failure "unable to find git commit: exit status 128".
Proof.
  apply (@GenerateFullyQualifiedImageName_errors (scripted "v1" "")
           {| prefix := ""; variant := commitSha |} "/src" "gcr.io/app").
  reflexivity.
Defined.

Lemma GenerateFullyQualifiedImageName_clean_tag_witness :
  exists tag,
    @GenerateFullyQualifiedImageName (scripted "-v1/rc" "")
      {| prefix := "rel-"; variant := tags |} "/src" "gcr.io/app"
    = Ok ("gcr.io/app:rel-" +:+ tag) /\
    well_formed_tag tag = true.
Proof.
  apply (@GenerateFullyQualifiedImageName_clean_tag (scripted "-v1/rc" "")
           {| prefix := "rel-"; variant := tags |} "/src" "gcr.io/app"
           "-v1/rc"); reflexivity.
Defined.

End TagProofs.

(** * Properties of the event server *)

Module EventProofs.
Import Event.

Lemma spelled_distinct : @distinct_constants spelled.
Proof. split; compute_done. Qed.

(** ** Handle: state and message *)

Section HandleFacts.
Context `{Constants}.
Hypothesis Hdistinct : distinct_constants.

Lemma logEvent_state (entry : proto_LogEntry) (w : world) :
  state (ev (logEvent entry w)) = state (ev w).
Proof. unfold logEvent. now destruct (fanout _ _ _). Qed.

Lemma logEvent_eventLog (entry : proto_LogEntry) (w : world) :
  eventLog (ev (logEvent entry w)) = eventLog (ev w) ++ [entry].
Proof. unfold logEvent. now destruct (fanout _ _ _). Qed.

Lemma Handle_state (now : Z) (event : proto_Event) (w : world) :
  state (ev (fst (Handle now event w))) =
  fst (Handle_update event (state (ev w))).
Proof.
  unfold Handle. destruct (Handle_update _ _) as [st entry]. simpl.
  now rewrite logEvent_state.
Qed.

Lemma Handle_all_state (calls : list (Z * proto_Event)) :
  forall w,
    state (ev (Handle_all calls w)) =
    foldl (fun st call => fst (Handle_update (snd call) st)) (state (ev w)) calls.
Proof.
  induction calls as [|call calls IH]; intros w; simpl; [reflexivity|].
  unfold Handle_all in *. simpl. now rewrite IH, Handle_state.
Qed.

Lemma kinds_differ : Build <> Deploy /\ Build <> Port /\ Deploy <> Port.
Proof.
  destruct Hdistinct as [Hk _].
  apply NoDup_cons in Hk as [Hb Hk]. apply NoDup_cons in Hk as [Hd _].
  set_solver.
Qed.

Lemma statuses_differ :
  InProgress <> Complete /\ InProgress <> Failed /\ Complete <> Failed.
Proof.
  destruct Hdistinct as [_ Hs].
  apply NoDup_cons in Hs as [Hi Hs]. apply NoDup_cons in Hs as [Hc _].
  set_solver.
Qed.

(** Rewriting the comparisons of [Handle] once the kind or the status of
    the event is known. *)
Ltac decide_eqb :=
  repeat match goal with
  | |- context [String.eqb ?a ?a] => rewrite (String.eqb_refl a)
  | Hne : ?a <> ?b |- context [String.eqb ?a ?b] =>
      rewrite (proj2 (String.eqb_neq a b) Hne)
  | Hne : ?b <> ?a |- context [String.eqb ?a ?b] =>
      rewrite (proj2 (String.eqb_neq a b) (not_eq_sym Hne))
  end.

Ltac known_constants :=
  destruct kinds_differ as (Hbd & Hbp & Hdp);
  destruct statuses_differ as (Hic & Hif & Hcf).

(** C2. The message derived for an event follows the table: three
    messages naming the artifact for a Build event in progress, complete
    or failed, three fixed messages for a Deploy event, and the empty
    message in every other case, Port events included. *)
Theorem Handle_message_table (event : proto_Event) (st : proto_State) :
  let message := snd (Handle_update event st) in
  (EventType event = Build ->
     (Status event = InProgress ->
        message = "Build started for artifact " +:+ Artifact event) /\
     (Status event = Complete ->
        message = "Build completed for artifact " +:+ Artifact event) /\
     (Status event = Failed ->
        message = "Build failed for artifact " +:+ Artifact event)) /\
  (EventType event = Deploy ->
     (Status event = InProgress -> message = "Deploy started") /\
     (Status event = Complete -> message = "Deploy complete") /\
     (Status event = Failed -> message = "Deploy failed")) /\
  (~ ((EventType event = Build \/ EventType event = Deploy) /\
      (Status event = InProgress \/ Status event = Complete \/
       Status event = Failed)) ->
     message = "") /\
  (EventType event = Port -> message = "").
Proof.
  known_constants. unfold Handle_update.
  destruct event as [kind artifact status err port]; simpl.
  split; [|split; [|split]].
  - intros ->. repeat split; intros ->; now decide_eqb.
  - intros ->. repeat split; intros ->; now decide_eqb.
  - intros Hother.
    destruct (String.eqb_spec kind Build) as [->|Hkb].
    + decide_eqb.
      destruct (String.eqb_spec status InProgress); [tauto|].
      destruct (String.eqb_spec status Complete); [tauto|].
      destruct (String.eqb_spec status Failed); [tauto|].
      destruct (Port =? Build)%string; reflexivity.
    + destruct (String.eqb_spec kind Deploy) as [->|Hkd].
      * destruct (String.eqb_spec status InProgress); [tauto|].
        destruct (String.eqb_spec status Complete); [tauto|].
        destruct (String.eqb_spec status Failed); [tauto|].
        destruct (Deploy =? Port)%string; reflexivity.
      * destruct (kind =? Port)%string; reflexivity.
  - intros ->. now decide_eqb.
Qed.

(** C3. From the empty state, a build of [artifact-a] in progress then
    complete, a deploy in progress then complete, and the forwarding of
    port 8080 to 80 leave [artifact-a] complete, the deploy complete and
    that one port forwarded. *)
Theorem Handle_fold_example (t1 t2 t3 t4 t5 : Z) :
  let w :=
    Handle_all
      [(t1, build_event "artifact-a" InProgress);
       (t2, build_event "artifact-a" Complete);
       (t3, deploy_event InProgress);
       (t4, deploy_event Complete);
       (t5, port_event {| LocalPort := 8080; RemotePort := 80 |})] init in
  Artifacts (BuildState (state (ev w))) !! "artifact-a" = Some Complete /\
  DeployStatus (DeployState (state (ev w))) = Complete /\
  ForwardedPorts (PortState (state (ev w))) =
    [Some {| LocalPort := 8080; RemotePort := 80 |}].
Proof.
  known_constants. intros w. subst w. rewrite Handle_all_state.
  unfold Handle_update, build_event, deploy_event, port_event.
  cbn [foldl fst snd EventType Artifact Status PortInfo].
  decide_eqb.
  cbn [fst snd set_artifact set_deploy append_port BuildState DeployState
       PortState Artifacts DeployStatus ForwardedPorts state ev init
       empty_state app].
  split; [|split]; reflexivity.
Qed.

Lemma Handle_reply (now : Z) (event : proto_Event) (w : world) :
  snd (Handle now event w) = (tt, None).
Proof. unfold Handle. now destruct (Handle_update _ _). Qed.

(** C4. [Handle] answers every event with the empty reply and no error,
    and an event whose kind is none of Build, Deploy and Port leaves the
    build, deploy and port states as they were. *)
Theorem Handle_unknown_kind (now : Z) (event : proto_Event) (w : world) :
  snd (Handle now event w) = (tt, None) /\
  (EventType event <> Build -> EventType event <> Deploy ->
   EventType event <> Port ->
   BuildState (state (ev (fst (Handle now event w)))) = BuildState (state (ev w)) /\
   DeployState (state (ev (fst (Handle now event w)))) = DeployState (state (ev w)) /\
   PortState (state (ev (fst (Handle now event w)))) = PortState (state (ev w))).
Proof.
  split; [apply Handle_reply|].
  intros Hb Hd Hp. rewrite Handle_state. unfold Handle_update.
  decide_eqb. repeat split.
Qed.

(** The message that lines 58-86 leave in [entry] is the one the table
    gives for the kind and the status of the event. *)
Lemma Handle_update_message (event : proto_Event) (st : proto_State) :
  snd (Handle_update event st) = derived_message event.
Proof.
  known_constants. unfold Handle_update, derived_message, message_table.
  destruct event as [kind artifact status err port].
  cbn [List.find fst snd EventType Status Artifact].
  destruct (String.eqb_spec kind Build) as [Hkb|Hkb];
    destruct (String.eqb_spec kind Deploy) as [Hkd|Hkd];
    destruct (String.eqb_spec kind Port) as [Hkp|Hkp];
    destruct (String.eqb_spec status InProgress) as [Hsi|Hsi];
    destruct (String.eqb_spec status Complete) as [Hsc|Hsc];
    destruct (String.eqb_spec status Failed) as [Hsf|Hsf];
    cbn [andb fst snd]; first [reflexivity | exfalso; congruence].
Qed.

(** C5. A call of [Handle] lengthens the log by one entry: the time of the
    call, the kind of the event, the message that the table gives for its
    kind and status, and its error field as it came; whatever the kind. *)
Theorem Handle_appends_one_entry (now : Z) (event : proto_Event) (w : world) :
  eventLog (ev (fst (Handle now event w))) =
  eventLog (ev w) ++
    [ {| Timestamp := now;
         Type_ := EventType event;
         Entry := derived_message event;
         Error := Err event |} ].
Proof.
  rewrite <- (Handle_update_message event (state (ev w))).
  unfold Handle. destruct (Handle_update _ _) as [st entry]. simpl.
  now rewrite logEvent_eventLog.
Qed.

(** C7. [Handle] changes the part of the state that belongs to the kind
    of the event and no other: a Build event keeps the deploy and port
    states, a Deploy event the build and port states, and a Port event the
    build and deploy states, adding its descriptor at the end of the
    forwarded ports whether or not it is there already. *)
Theorem Handle_frame (now : Z) (event : proto_Event) (w : world) :
  let st := state (ev w) in
  let st' := state (ev (fst (Handle now event w))) in
  (EventType event = Build ->
     DeployState st' = DeployState st /\ PortState st' = PortState st) /\
  (EventType event = Deploy ->
     BuildState st' = BuildState st /\ PortState st' = PortState st) /\
  (EventType event = Port ->
     BuildState st' = BuildState st /\ DeployState st' = DeployState st /\
     ForwardedPorts (PortState st') =
       ForwardedPorts (PortState st) ++ [PortInfo event]).
Proof.
  known_constants. intros st st'. subst st st'. rewrite Handle_state.
  unfold Handle_update. destruct event as [kind artifact status err port].
  simpl. split; [|split]; intros ->; decide_eqb; repeat split.
Qed.

End HandleFacts.

#[local] Existing Instance spelled.

(** The table at the constants of the spec, for a failed build of
    [artifact-x] and for a Port event. *)
Lemma Handle_message_table_witness :
  snd (@Handle_update spelled (build_event "artifact-x" "Failed") empty_state)
    = "Build failed for artifact artifact-x" /\
  snd (@Handle_update spelled
         (port_event {| LocalPort := 8080; RemotePort := 80 |}) empty_state)
    = "".
Proof.
  pose proof (@Handle_message_table spelled spelled_distinct) as Htable.
  split.
  - apply (Htable (build_event "artifact-x" "Failed") empty_state);
      reflexivity.
  - apply (Htable (port_event {| LocalPort := 8080; RemotePort := 80 |})
             empty_state); reflexivity.
Defined.

Lemma Handle_fold_example_witness :
  let w :=
    @Handle_all spelled
      [(1, build_event "artifact-a" "InProgress");
       (2, build_event "artifact-a" "Complete");
       (3, deploy_event "InProgress");
       (4, deploy_event "Complete");
       (5, port_event {| LocalPort := 8080; RemotePort := 80 |})]%Z init in
  Artifacts (BuildState (state (ev w))) !! "artifact-a" = Some "Complete" /\
  DeployStatus (DeployState (state (ev w))) = "Complete" /\
  ForwardedPorts (PortState (state (ev w))) =
    [Some {| LocalPort := 8080; RemotePort := 80 |}].
Proof.
  exact (@Handle_fold_example spelled spelled_distinct 1 2 3 4 5)%Z.
Defined.

Lemma Handle_unknown_kind_witness :
  state (ev (fst (@Handle spelled 7 test_event init))) = empty_state /\
  snd (@Handle spelled 7 test_event init) = (tt, None).
Proof.
  destruct (@Handle_unknown_kind spelled 7%Z test_event init)
    as [Hreply Hstate].
  split; [|exact Hreply].
  destruct Hstate as (Hb & Hd & Hp); try discriminate.
  destruct (state (ev (fst (@Handle spelled 7 test_event init)))).
  simpl in *. now subst.
Defined.

Lemma Handle_frame_witness :
  let st := state (ev (fst (@Handle spelled 7
              (port_event {| LocalPort := 8080; RemotePort := 80 |}) init))) in
  BuildState st = BuildState empty_state /\
  DeployState st = DeployState empty_state /\
  ForwardedPorts (PortState st) =
    [Some {| LocalPort := 8080; RemotePort := 80 |}].
Proof.
  apply (@Handle_frame spelled spelled_distinct 7%Z
           (port_event {| LocalPort := 8080; RemotePort := 80 |}) init).
  reflexivity.
Defined.

Lemma Handle_appends_one_entry_witness :
  eventLog (ev (fst (@Handle spelled 7
                       {| EventType := "Build"; Artifact := "artifact-x";
                          Status := "Failed"; Err := "exit status 1";
                          PortInfo := None |} init))) =
  [ {| Timestamp := 7; Type_ := "Build";
       Entry := "Build failed for artifact artifact-x";
       Error := "exit status 1" |} ].
Proof.
  exact (@Handle_appends_one_entry spelled spelled_distinct 7%Z
           {| EventType := "Build"; Artifact := "artifact-x";
              Status := "Failed"; Err := "exit status 1";
              PortInfo := None |} init).
Defined.

(** The entry logged for an event of unknown kind. *)
Example Handle_logs_unknown_kind :
  eventLog (ev (fst (@Handle spelled 7 test_event init))) =
  [ {| Timestamp := 7; Type_ := "Test"; Entry := ""; Error := "boom" |} ].
Proof. reflexivity. Qed.

(** ** EventLog: subscribers and producers interleaved *)

Lemma forward_pc (entry : proto_LogEntry) (s : stream) :
  (peer s = None /\ forward entry s =
     {| peer := None; pc := Live; sent := sent s ++ [entry] |}) \/
  (exists err, peer s = Some err /\ forward entry s = set_pc (Returned err) s).
Proof.
  unfold forward, Send. destruct (peer s) as [err|] eqn:Hp.
  - right. exists err. auto.
  - left. auto.
Qed.

Lemma deliver_past_replay (entry : proto_LogEntry) (s : stream) :
  (forall p, pc s <> Replaying p) ->
  forall p, pc (deliver entry s) <> Replaying p.
Proof.
  intros Hs p. unfold deliver. destruct (pc s) eqn:Hpc; simpl; rewrite ?Hpc;
    done.
Qed.

Lemma is_live_insert_ne (ss : gmap nat stream) (c d : nat) (s : stream) :
  c <> d -> is_live (<[d := s]> ss) c = is_live ss c.
Proof. intros Hne. unfold is_live. now rewrite lookup_insert_ne. Qed.

Lemma fanout_spec (entry : proto_LogEntry) (ls : list nat) :
  forall ss, NoDup ls ->
    NoDup (fst (fanout entry ls ss)) /\
    (forall c, c ∈ fst (fanout entry ls ss) <-> c ∈ ls /\ is_live ss c = true) /\
    (forall c, snd (fanout entry ls ss) !! c =
               if decide (c ∈ ls) then deliver entry <$> ss !! c else ss !! c).
Proof.
  induction ls as [|d ls IH]; intros ss Hnd; simpl.
  - split; [constructor|]. split.
    + intros c. rewrite elem_of_nil. tauto.
    + intros c. destruct (decide (c ∈ [])) as [Hc|Hc]; [|reflexivity].
      now apply elem_of_nil in Hc.
  - apply NoDup_cons in Hnd as [Hd Hnd].
    assert (Hskip :
      is_live ss d = false ->
      NoDup (fst (fanout entry ls ss)) /\
      (forall c, c ∈ fst (fanout entry ls ss) <->
                 c ∈ d :: ls /\ is_live ss c = true) /\
      (forall c, snd (fanout entry ls ss) !! c =
                 if decide (c ∈ d :: ls) then deliver entry <$> ss !! c
                 else ss !! c)).
    { intros Hdead. destruct (IH ss Hnd) as (Hn & Hin & Hlk).
      split; [exact Hn|]. split.
      - intros c. rewrite Hin, elem_of_cons. split; [tauto|].
        intros [[->|Hc] Hl]; [congruence | tauto].
      - intros c. rewrite Hlk.
        destruct (decide (c ∈ ls)) as [Hc|Hc];
          destruct (decide (c ∈ d :: ls)) as [Hc'|Hc']; try reflexivity.
        { exfalso. apply Hc'. now right. }
        apply elem_of_cons in Hc' as [->|?]; [|tauto].
        unfold is_live in Hdead. unfold deliver.
        destruct (ss !! d) as [s|]; [|reflexivity]. simpl.
        destruct (pc s); try reflexivity; discriminate. }
    destruct (ss !! d) as [s|] eqn:Hsd.
    2:{ apply Hskip. unfold is_live. now rewrite Hsd. }
    destruct (pc s) eqn:Hpc.
    1,3,4: apply Hskip; unfold is_live; now rewrite Hsd, Hpc.
    destruct (IH (<[d := set_pc (Sending entry) s]> ss) Hnd)
      as (Hn & Hin & Hlk).
    destruct (fanout entry ls (<[d := set_pc (Sending entry) s]> ss))
      as [ls' ss'].
    simpl in *. split; [|split].
    + apply NoDup_cons. split; [|exact Hn]. rewrite Hin. tauto.
    + intros c. rewrite !elem_of_cons, Hin.
      destruct (decide (c = d)) as [->|Hne].
      * unfold is_live at 2. rewrite Hsd, Hpc. tauto.
      * rewrite is_live_insert_ne by done. tauto.
    + intros c. rewrite Hlk.
      destruct (decide (c = d)) as [->|Hne].
      * rewrite decide_False by done. rewrite decide_True by (now left).
        rewrite lookup_insert_eq, Hsd. simpl. unfold deliver. now rewrite Hpc.
      * rewrite lookup_insert_ne by done.
        destruct (decide (c ∈ ls)) as [Hc|Hc];
          destruct (decide (c ∈ d :: ls)) as [Hc'|Hc']; try reflexivity.
        -- exfalso. apply Hc'. now right.
        -- apply elem_of_cons in Hc' as [?|?]; tauto.
Qed.

Section Streaming.
Context `{Constants}.

(** What a call of [Handle] does to the log, the listeners and the
    streams. *)
Lemma Handle_fanout (now : Z) (event : proto_Event) (w : world) :
  exists entry,
    eventLog (ev (fst (Handle now event w))) = eventLog (ev w) ++ [entry] /\
    listeners (ev (fst (Handle now event w))) =
      fst (fanout entry (listeners (ev w)) (streams w)) /\
    streams (fst (Handle now event w)) =
      snd (fanout entry (listeners (ev w)) (streams w)).
Proof.
  unfold Handle. destruct (Handle_update _ _) as [st msg].
  exists (Handle_entry now event msg). unfold logEvent. simpl.
  now destruct (fanout _ _ _).
Qed.

(** A step of a call other than the registration of lines 46-47 leaves
    the handler as it is. *)
Lemma EventLog_step_inv (c : nat) (w w' : world) (s : stream) :
  EventLog_step c w = Some w' -> streams w !! c = Some s ->
  (pc s = Replaying [] /\
   w' = {| ev := RegisterListener c (ev w);
           streams := <[c := set_pc Live s]> (streams w) |}) \/
  (exists s', w' = {| ev := ev w; streams := <[c := s']> (streams w) |} /\
     ((exists entry rest, pc s = Replaying (entry :: rest) /\
         ((peer s = None /\
           s' = {| peer := None; pc := Replaying rest;
                   sent := sent s ++ [entry] |}) \/
          (exists err, peer s = Some err /\ s' = set_pc (Returned err) s))) \/
      (exists entry, pc s = Sending entry /\ s' = forward entry s))).
Proof.
  unfold EventLog_step. intros Hstep Hs. rewrite Hs in Hstep.
  destruct (pc s) as [[|entry rest]| |entry|e] eqn:Hpc; try discriminate.
  - left. inversion Hstep; now subst.
  - right. unfold Send in Hstep. destruct (peer s) as [err|] eqn:Hp;
      inversion Hstep; subst w'; eexists; (split; [reflexivity|]);
      left; exists entry, rest; (split; [reflexivity|]).
    + right. eauto.
    + left. split; reflexivity.
  - right. inversion Hstep; subst w'. eexists. split; [reflexivity|].
    right. eauto.
Qed.

Lemma init_well_registered : well_registered init.
Proof.
  split; [constructor|].
  intros c Hc. now apply elem_of_nil in Hc.
Qed.

Lemma step_well_registered (a : action) (w w' : world) :
  well_registered w -> step a w = Some w' -> well_registered w'.
Proof.
  intros (Hnd & Hreg) Hstep. destruct a as [now event|c|c|c err];
    simpl in Hstep.
  - (* Handle *)
    inversion Hstep; subst w'; clear Hstep.
    destruct (Handle_fanout now event w) as (entry & _ & Hls & Hss).
    unfold well_registered. rewrite Hls, Hss. clear Hls Hss.
    destruct (fanout_spec entry _ (streams w) Hnd) as (Hnd' & Hin & Hlk).
    split; [exact Hnd'|].
    intros c Hc. apply Hin in Hc as [Hc _].
    destruct (Hreg c Hc) as (s & Hs & Hpast).
    exists (deliver entry s). rewrite Hlk, decide_True, Hs by done.
    split; [reflexivity|]. now apply deliver_past_replay.
  - (* a new call *)
    unfold EventLog_call in Hstep.
    destruct (streams w !! c) eqn:Hc; [discriminate|].
    inversion Hstep; subst w'; clear Hstep. unfold well_registered. simpl.
    split; [exact Hnd|].
    intros d Hd. destruct (Hreg d Hd) as (s & Hs & Hpast).
    exists s. split; [|exact Hpast].
    rewrite lookup_insert_ne; [exact Hs | congruence].
  - (* a step of a call *)
    destruct (streams w !! c) as [s|] eqn:Hc;
      [|unfold EventLog_step in Hstep; now rewrite Hc in Hstep].
    assert (Hout : forall p, pc s = Replaying p -> c ∉ listeners (ev w)).
    { intros p Hp Hin. destruct (Hreg c Hin) as (s' & Hs' & Hpast).
      rewrite Hc in Hs'. inversion Hs'; subst s'. exact (Hpast p Hp). }
    destruct (EventLog_step_inv c w w' s Hstep Hc)
      as [[Hpc ->]|(s' & -> & Hcase)]; unfold well_registered; simpl.
    + split.
      * apply NoDup_app. split; [exact Hnd|]. split; [|apply NoDup_singleton].
        intros d Hd Hd'. apply list_elem_of_singleton in Hd' as ->.
        exact (Hout _ Hpc Hd).
      * intros d Hd. destruct (decide (d = c)) as [->|Hne].
        -- exists (set_pc Live s). rewrite lookup_insert_eq. now split.
        -- rewrite lookup_insert_ne by done. apply Hreg.
           apply elem_of_app in Hd as [Hd|Hd]; [exact Hd|].
           now apply list_elem_of_singleton in Hd.
    + split; [exact Hnd|].
      intros d Hd. destruct (decide (d = c)) as [->|Hne].
      * exists s'. rewrite lookup_insert_eq. split; [reflexivity|].
        destruct Hcase as [(entry & rest & Hpc & _)|(entry & Hpc & ->)].
        -- destruct (Hout _ Hpc Hd).
        -- intros p.
           destruct (forward_pc entry s) as [[_ ->]|(e & _ & ->)]; done.
      * rewrite lookup_insert_ne by done. now apply Hreg.
  - (* the remote end goes away *)
    unfold disconnect in Hstep.
    destruct (streams w !! c) as [s|] eqn:Hc; [|discriminate].
    inversion Hstep; subst w'; clear Hstep. unfold well_registered. simpl.
    split; [exact Hnd|].
    intros d Hd. destruct (Hreg d Hd) as (s' & Hs' & Hpast).
    destruct (decide (d = c)) as [->|Hne].
    + exists (set_peer (Some err) s). rewrite lookup_insert_eq.
      split; [reflexivity|]. rewrite Hc in Hs'. now inversion Hs'; subst.
    + exists s'. now rewrite lookup_insert_ne.
Qed.

Lemma run_well_registered (sched : list action) :
  forall w w', well_registered w -> run sched w = Some w' -> well_registered w'.
Proof.
  induction sched as [|a sched IH]; intros w w' Hw Hrun; simpl in Hrun.
  - now inversion Hrun; subst.
  - destruct (step a w) as [w1|] eqn:Hstep; [|discriminate].
    eapply IH; [|exact Hrun]. eapply step_well_registered; eauto.
Qed.

Lemma step_in_sync (c : nat) (a : action) (w w' : world) :
  well_registered w -> in_sync c w ->
  negb (busy c w && appends a) = true ->
  step a w = Some w' -> in_sync c w'.
Proof.
  intros (Hnd & Hreg) Hsync Hquiet Hstep.
  destruct a as [now event|d|d|d err]; simpl in Hstep.
  - (* Handle *)
    inversion Hstep; subst w'; clear Hstep.
    simpl in Hquiet. rewrite andb_true_r, negb_true_iff in Hquiet.
    destruct (Handle_fanout now event w) as (entry & Hlog & Hls & Hss).
    destruct (fanout_spec entry _ (streams w) Hnd) as (_ & Hin & Hlk).
    intros s'. rewrite Hss, Hlk, Hlog, Hls. clear Hss Hlk Hlog Hls.
    unfold busy in Hquiet.
    destruct (streams w !! c) as [s|] eqn:Hs;
      [|destruct (decide _); discriminate].
    specialize (Hsync s Hs).
    destruct (pc s) as [p| |e|e] eqn:Hpc; try discriminate.
    + destruct Hsync as [Hsent Hc].
      rewrite decide_True by exact Hc. simpl. intros [= <-].
      unfold deliver. rewrite Hpc. simpl. split; [congruence|].
      apply Hin. split; [exact Hc|]. unfold is_live. now rewrite Hs, Hpc.
    + assert (Hs' : deliver entry s = s) by (unfold deliver; now rewrite Hpc).
      destruct (decide (c ∈ listeners (ev w))); simpl; rewrite ?Hs';
        intros [= <-]; rewrite Hpc; now apply prefix_app_r.
  - (* a new call *)
    unfold EventLog_call in Hstep.
    destruct (streams w !! d) eqn:Hd; [discriminate|].
    inversion Hstep; subst w'; clear Hstep. intros s'. simpl.
    destruct (decide (c = d)) as [->|Hne].
    + rewrite lookup_insert_eq. now intros [= <-].
    + rewrite lookup_insert_ne by done. apply Hsync.
  - (* a step of a call *)
    destruct (streams w !! d) as [s|] eqn:Hd;
      [|unfold EventLog_step in Hstep; now rewrite Hd in Hstep].
    destruct (decide (c = d)) as [->|Hne].
    + specialize (Hsync s Hd).
      destruct (EventLog_step_inv d w w' s Hstep Hd)
        as [[Hpc ->]|(s' & -> & Hcase)]; intros s0; simpl;
        rewrite lookup_insert_eq; intros [= <-].
      * rewrite Hpc, app_nil_r in Hsync. simpl. split; [exact Hsync|].
        apply elem_of_app. right. now left.
      * destruct Hcase as [(entry & rest & Hpc & Hsend)|(entry & Hpc & ->)];
          rewrite Hpc in Hsync.
        -- destruct Hsend as [[_ ->]|(e & _ & ->)]; simpl.
           ++ now rewrite <- app_assoc.
           ++ rewrite <- Hsync. now apply prefix_app_r.
        -- destruct Hsync as [Hsent Hc].
           destruct (forward_pc entry s) as [[_ ->]|(e & _ & ->)]; simpl.
           ++ now split.
           ++ rewrite <- Hsent. now apply prefix_app_r.
    + assert (Hw' : eventLog (ev w') = eventLog (ev w) /\
                    streams w' !! c = streams w !! c /\
                    (forall x, x ∈ listeners (ev w) -> x ∈ listeners (ev w'))).
      { destruct (EventLog_step_inv d w w' s Hstep Hd)
          as [[_ ->]|(s' & -> & _)]; simpl;
          rewrite lookup_insert_ne by done; repeat split; try done.
        intros x Hx. apply elem_of_app. now left. }
      destruct Hw' as (Hlog & Hss & Hls). intros s'. rewrite Hss, Hlog.
      intros Hs'. specialize (Hsync s' Hs').
      destruct (pc s'); try exact Hsync;
        destruct Hsync as [Hsent Hc]; split; auto.
  - (* the remote end goes away *)
    unfold disconnect in Hstep.
    destruct (streams w !! d) as [s|] eqn:Hd; [|discriminate].
    inversion Hstep; subst w'; clear Hstep. intros s'. simpl.
    destruct (decide (c = d)) as [->|Hne].
    + rewrite lookup_insert_eq. intros [= <-]. simpl. now apply Hsync.
    + rewrite lookup_insert_ne by done. apply Hsync.
Qed.

Lemma run_in_sync (c : nat) (sched : list action) :
  forall w w',
    well_registered w -> in_sync c w ->
    ready_at_appends c sched w = true ->
    run sched w = Some w' -> in_sync c w'.
Proof.
  induction sched as [|a sched IH]; intros w w' Hw Hsync Hquiet Hrun;
    simpl in Hrun, Hquiet.
  - now inversion Hrun; subst.
  - destruct (step a w) as [w1|] eqn:Hstep; [|discriminate].
    apply andb_true_iff in Hquiet as [Hq1 Hq2].
    eapply IH; [| |exact Hq2|exact Hrun].
    + eapply step_well_registered; eauto.
    + eapply step_in_sync; eauto.
Qed.

Lemma init_in_sync (c : nat) : in_sync c init.
Proof.
  intros s Hs. change (streams init) with (∅ : gmap nat stream) in Hs.
  now rewrite lookup_empty in Hs.
Qed.

(** C1, as the code has it.  [EventLog] reads the log at line 41 and
    registers its channel at line 47 with no lock held in between, and it
    is away from its channel while it sends an entry on at line 51.  In
    every interleaving in which each entry is appended while the
    subscriber is not yet attached or is blocked on its channel at line
    50, what the subscriber has been sent is a prefix of the log, and all
    of the log once it is back at line 50: the appended entries in their
    order, none missing and none twice. *)
Theorem EventLog_exact_when_ready
    (sched : list action) (w : world) (c : nat) (s : stream) :
  run sched init = Some w ->
  ready_at_appends c sched init = true ->
  streams w !! c = Some s ->
  sent s `prefix_of` eventLog (ev w) /\
  (pc s = Live -> sent s = eventLog (ev w)).
Proof.
  intros Hrun Hquiet Hs.
  pose proof (run_in_sync c sched init w init_well_registered
                (init_in_sync c) Hquiet Hrun s Hs) as Hsync.
  destruct (pc s) as [p| |e|e]; split; try discriminate.
  - rewrite <- Hsync. now apply prefix_app_r.
  - now rewrite (proj1 Hsync).
  - intros _. exact (proj1 Hsync).
  - rewrite <- (proj1 Hsync). now apply prefix_app_r.
  - exact Hsync.
Qed.

End Streaming.

Section Cleanup.
Context `{Constants}.

(** C6, as the code has it.  A call of [EventLog] returns on a failed
    [Send], at line 43 or at line 52, and on nothing else, and deregisters
    nothing on the way out: the step on which it returns is its own, and
    leaves the listener set as it was.  A call that returns from the
    replay had not registered its channel; a call that returns from the
    second loop leaves its channel where it found it. *)
Theorem EventLog_returns_without_unsubscribe
    (sched : list action) (a : action) (w w' : world) (c : nat)
    (s s' : stream) (err : go_error) :
  run sched init = Some w ->
  step a w = Some w' ->
  streams w !! c = Some s -> streams w' !! c = Some s' ->
  (forall e, pc s <> Returned e) -> pc s' = Returned err ->
  a = Advance c /\
  peer s = Some err /\
  listeners (ev w') = listeners (ev w) /\
  (((exists p, pc s = Replaying p) /\ (c ∉ listeners (ev w)))
   \/
   (exists entry, pc s = Sending entry)).
Proof.
  intros Hrun Hstep Hs Hs' Hrunning Hret.
  destruct (run_well_registered sched init w init_well_registered Hrun)
    as (Hnd & Hreg).
  assert (Hout : forall p, pc s = Replaying p -> c ∉ listeners (ev w)).
  { intros p Hp Hin. destruct (Hreg c Hin) as (s0 & Hs0 & Hpast).
    rewrite Hs in Hs0. inversion Hs0; subst s0. exact (Hpast p Hp). }
  assert (Hsame : s' = s -> False).
  { intros ->. exact (Hrunning err Hret). }
  destruct a as [now event|d|d|d e]; simpl in Hstep.
  - (* Handle *)
    exfalso. inversion Hstep; subst w'; clear Hstep.
    destruct (Handle_fanout now event w) as (entry & _ & _ & Hss).
    destruct (fanout_spec entry _ (streams w) Hnd) as (_ & _ & Hlk).
    rewrite Hss, Hlk, Hs in Hs'. clear Hss Hlk.
    destruct (decide (c ∈ listeners (ev w))) as [Hc|Hc]; simpl in Hs';
      inversion Hs'; subst s'; clear Hs'; [|exact (Hsame eq_refl)].
    unfold deliver in Hret, Hsame.
    destruct (pc s) as [p| |entry0|e] eqn:Hpc;
      try exact (Hsame eq_refl). discriminate Hret.
  - (* a new call *)
    exfalso. unfold EventLog_call in Hstep.
    destruct (streams w !! d) eqn:Hd; [discriminate|].
    inversion Hstep; subst w'; clear Hstep. simpl in Hs'.
    rewrite lookup_insert_ne in Hs' by congruence.
    rewrite Hs in Hs'. inversion Hs'; subst s'. exact (Hsame eq_refl).
  - (* a step of a call *)
    destruct (streams w !! d) as [s0|] eqn:Hd;
      [|unfold EventLog_step in Hstep; now rewrite Hd in Hstep].
    destruct (decide (c = d)) as [->|Hne].
    + rewrite Hs in Hd. inversion Hd; subst s0; clear Hd.
      split; [reflexivity|].
      destruct (EventLog_step_inv d w w' s Hstep Hs)
        as [[Hpc ->]|(s1 & -> & Hcase)]; simpl in Hs';
        rewrite lookup_insert_eq in Hs'; inversion Hs'; subst s';
        clear Hs'; [discriminate Hret|].
      destruct Hcase as [(entry & rest & Hpc & Hsend)|(entry & Hpc & ->)].
      * destruct Hsend as [[_ ->]|(e & Hp & ->)]; [discriminate Hret|].
        simpl in Hret. inversion Hret; subst e.
        split; [exact Hp|]. split; [reflexivity|]. left.
        split; [eauto | exact (Hout _ Hpc)].
      * destruct (forward_pc entry s) as [[_ Hf]|(e & Hp & Hf)];
          rewrite Hf in Hret; [discriminate Hret|].
        simpl in Hret. inversion Hret; subst e.
        split; [exact Hp|]. split; [reflexivity|]. right. eauto.
    + exfalso.
      assert (Hss : streams w' !! c = streams w !! c).
      { destruct (EventLog_step_inv d w w' s0 Hstep Hd)
          as [[_ ->]|(s1 & -> & _)]; simpl; now rewrite lookup_insert_ne. }
      rewrite Hss, Hs in Hs'. inversion Hs'; subst s'.
      exact (Hsame eq_refl).
  - (* the remote end goes away *)
    exfalso. unfold disconnect in Hstep.
    destruct (streams w !! d) as [s0|] eqn:Hd; [|discriminate].
    inversion Hstep; subst w'; clear Hstep. simpl in Hs'.
    destruct (decide (c = d)) as [->|Hne].
    + rewrite lookup_insert_eq in Hs'. inversion Hs'; subst s'.
      rewrite Hs in Hd. inversion Hd; subst s0. simpl in Hret.
      exact (Hrunning err Hret).
    + rewrite lookup_insert_ne in Hs' by done.
      rewrite Hs in Hs'. inversion Hs'; subst s'. exact (Hsame eq_refl).
Qed.

End Cleanup.

(** The producer runs between line 41 and line 47 of the subscriber: the
    first entry is in the log and the subscriber, back at line 50 after
    the second, was never sent it. *)
Lemma replay_then_live_exact_counterexample :
  (exists w s,
      @run spelled racing_attach init = Some w /\
      streams w !! 0 = Some s /\ pc s = Live /\
      sent s = [completed] /\
      eventLog (ev w) = [started; completed]) /\
  ~ @replay_then_live_exact spelled.
Proof.
  assert (Hrun : @run spelled racing_attach init
                 = Some (default init (@run spelled racing_attach init)))
    by (vm_compute; reflexivity).
  set (w := default init (@run spelled racing_attach init)) in *.
  assert (Hs : streams w !! 0 =
               Some {| peer := None; pc := Live; sent := [completed] |})
    by (vm_compute; reflexivity).
  assert (Hlog : eventLog (ev w) = [started; completed])
    by (vm_compute; reflexivity).
  split.
  - exists w, {| peer := None; pc := Live; sent := [completed] |}.
    repeat split; assumption.
  - intros Hclaim.
    specialize (Hclaim racing_attach w 0 _ Hrun Hs eq_refl).
    rewrite Hlog in Hclaim. discriminate Hclaim.
Qed.

Lemma EventLog_exact_when_ready_witness :
  exists w s,
    @run spelled quiet_attach_example init = Some w /\
    streams w !! 0 = Some s /\
    sent s = [started; completed] /\
    sent s = eventLog (ev w).
Proof.
  pose (w := default init (@run spelled quiet_attach_example init)).
  pose (s := {| peer := None; pc := Live; sent := [started; completed] |}).
  assert (Hrun : @run spelled quiet_attach_example init = Some w)
    by (vm_compute; reflexivity).
  assert (Hs : streams w !! 0 = Some s) by (vm_compute; reflexivity).
  exists w, s. split; [exact Hrun|]. split; [exact Hs|].
  split; [reflexivity|].
  apply (@EventLog_exact_when_ready spelled
           quiet_attach_example w 0 s Hrun); [ | exact Hs | ]; reflexivity.
Defined.

(** A second entry is appended while the subscriber is inside
    [stream.Send] with the first: the listener is dropped, and the
    subscriber, back at line 50, is never sent the second entry. *)
Example slow_subscriber_dropped :
  exists w,
    @run spelled slow_subscriber init = Some w /\
    streams w !! 0 = Some {| peer := None; pc := Live; sent := [started] |} /\
    eventLog (ev w) = [started; completed] /\
    listeners (ev w) = [].
Proof.
  exists (default init (@run spelled slow_subscriber init)).
  repeat split; vm_compute; reflexivity.
Qed.

(** The remote end of a registered subscriber goes away and the send of
    the entry it holds makes its call return: the channel is still
    registered. *)
Lemma released_on_exit_counterexample :
  (exists w s,
      @run spelled (disconnected ++ [Advance 0]) init = Some w /\
      streams w !! 0 = Some s /\ pc s = Returned "EOF" /\
      listeners (ev w) = [0]) /\
  ~ @released_on_exit spelled.
Proof.
  pose (sched := disconnected ++ [Advance 0]).
  assert (Hrun : @run spelled sched init
                 = Some (default init (@run spelled sched init)))
    by (vm_compute; reflexivity).
  set (w := default init (@run spelled sched init)) in *.
  assert (Hs : streams w !! 0 =
               Some {| peer := Some "EOF"; pc := Returned "EOF"; sent := [] |})
    by (vm_compute; reflexivity).
  assert (Hls : listeners (ev w) = [0]) by (vm_compute; reflexivity).
  split.
  - exists w, {| peer := Some "EOF"; pc := Returned "EOF"; sent := [] |}.
    repeat split; assumption.
  - intros Hclaim.
    specialize (Hclaim sched w 0 _ "EOF" Hrun Hs eq_refl).
    apply Hclaim. rewrite Hls. now left.
Qed.

Lemma EventLog_returns_without_unsubscribe_witness :
  exists w w',
    @run spelled disconnected init = Some w /\
    @step spelled (Advance 0) w = Some w' /\
    listeners (ev w') = listeners (ev w) /\
    listeners (ev w') = [0].
Proof.
  pose (w := default init (@run spelled disconnected init)).
  pose (w' := default init (@step spelled (Advance 0) w)).
  pose (s := {| peer := Some "EOF"; pc := Sending started; sent := [] |}).
  pose (s' := {| peer := Some "EOF"; pc := Returned "EOF"; sent := [] |}).
  assert (Hrun : @run spelled disconnected init = Some w)
    by (vm_compute; reflexivity).
  assert (Hstep : @step spelled (Advance 0) w = Some w')
    by (vm_compute; reflexivity).
  assert (Hs : streams w !! 0 = Some s) by (vm_compute; reflexivity).
  assert (Hs' : streams w' !! 0 = Some s') by (vm_compute; reflexivity).
  exists w, w'. split; [exact Hrun|]. split; [exact Hstep|].
  destruct (@EventLog_returns_without_unsubscribe spelled
              disconnected (Advance 0) w w' 0 s s' "EOF"
              Hrun Hstep Hs Hs') as (_ & _ & Hls & _).
  - intros e. discriminate.
  - reflexivity.
  - split; [exact Hls|]. vm_compute. reflexivity.
Defined.

(** ** newStatusServer *)

(** C8. With the empty address [newStatusServer] returns a stop function
    that does nothing and no error, and the sockets are as before: no bind
    was attempted.  When [net.Listen] fails on a configured address it
    returns that error wrapped, again with the stop function that does
    nothing, and no listener is open or served that was not before. *)
Theorem newStatusServer_disabled_or_unbound (n : net) :
  newStatusServer "" n = (n, (stop_nothing, None)) /\
  (forall m, call_stop stop_nothing m = m) /\
  (forall port n' err,
     port <> "" ->
     net_Listen port n = (n', Failure err) ->
     newStatusServer port n =
       (n', (stop_nothing, Some (wrap "creating listener" err))) /\
     open n' = open n /\ serving n' = serving n).
Proof.
  split; [reflexivity|]. split; [reflexivity|].
  intros port n' err Hport Hlisten. unfold newStatusServer.
  rewrite (proj2 (String.eqb_neq port "") Hport), Hlisten.
  split; [reflexivity|].
  unfold net_Listen in Hlisten.
  destruct (unavailable n !! port); inversion Hlisten; subst; now simpl.
Qed.

Lemma newStatusServer_disabled_or_unbound_witness :
  binds (fst (newStatusServer "" busy_net)) = [] /\
  snd (newStatusServer ":50051" busy_net) =
    (stop_nothing,
     Some "creating listener: bind: address already in use") /\
  open (fst (newStatusServer ":50051" busy_net)) = [].
Proof.
  destruct (newStatusServer_disabled_or_unbound busy_net)
    as (Hoff & _ & Hfail).
  destruct (Hfail ":50051" (fst (net_Listen ":50051" busy_net))
              "bind: address already in use") as (Hret & Hopen & _).
  - discriminate.
  - reflexivity.
  - rewrite Hoff, Hret. repeat split.
Defined.

(** A free address: the listener is open and served until the stop
    function is called. *)
Example newStatusServer_started :
  let '(n, (f, err)) := newStatusServer ":50052" busy_net in
  err = None /\ open n = [":50052"] /\ serving n = [":50052"] /\
  open (call_stop f n) = [] /\ serving (call_stop f n) = [].
Proof. vm_compute. repeat split. Qed.

(** ** The state as a fold of the events *)

Section FoldFacts.
Context `{Constants}.

(** What one event does to each part of the state. *)
Lemma Handle_update_build (event : proto_Event) (st : proto_State) :
  Artifacts (BuildState (fst (Handle_update event st))) =
  if String.eqb (EventType event) Build
  then <[Artifact event := Status event]> (Artifacts (BuildState st))
  else Artifacts (BuildState st).
Proof.
  unfold Handle_update.
  destruct (EventType event =? Build)%string,
           (EventType event =? Deploy)%string,
           (EventType event =? Port)%string; reflexivity.
Qed.

Lemma Handle_update_deploy (event : proto_Event) (st : proto_State) :
  DeployStatus (DeployState (fst (Handle_update event st))) =
  if String.eqb (EventType event) Deploy then Status event
  else DeployStatus (DeployState st).
Proof.
  unfold Handle_update.
  destruct (EventType event =? Build)%string,
           (EventType event =? Deploy)%string,
           (EventType event =? Port)%string; reflexivity.
Qed.

Lemma Handle_update_port (event : proto_Event) (st : proto_State) :
  ForwardedPorts (PortState (fst (Handle_update event st))) =
  if String.eqb (EventType event) Port
  then ForwardedPorts (PortState st) ++ [PortInfo event]
  else ForwardedPorts (PortState st).
Proof.
  unfold Handle_update.
  destruct (EventType event =? Build)%string,
           (EventType event =? Deploy)%string,
           (EventType event =? Port)%string; reflexivity.
Qed.

Lemma Handle_all_snoc (calls : list (Z * proto_Event)) (call : Z * proto_Event)
    (w : world) :
  state (ev (Handle_all (calls ++ [call]) w)) =
  fst (Handle_update (snd call) (state (ev (Handle_all calls w)))).
Proof. unfold Handle_all. now rewrite foldl_snoc, Handle_state. Qed.

(** X11. After a sequence of calls of [Handle] an artifact has the
    status of the last Build event that named it, or its earlier entry
    if none did: entries are overwritten and never removed. *)
Theorem Handle_all_artifact
    (calls : list (Z * proto_Event)) (w : world) (artifact : string) :
  let before := Artifacts (BuildState (state (ev w))) in
  let after := Artifacts (BuildState (state (ev (Handle_all calls w)))) in
  after !! artifact =
    match last_build artifact calls with
    | Some status => Some status
    | None => before !! artifact
    end /\
  (is_Some (before !! artifact) -> is_Some (after !! artifact)).
Proof.
  intros before after.
  assert (Hlast : after !! artifact =
                  match last_build artifact calls with
                  | Some status => Some status
                  | None => before !! artifact
                  end).
  { subst before after.
    induction calls as [|call calls IH] using rev_ind; [reflexivity|].
    rewrite Handle_all_snoc, Handle_update_build.
    unfold last_build in *. rewrite foldl_snoc.
    destruct (String.eqb_spec (EventType (snd call)) Build) as [Hb|Hb];
      simpl; [|exact IH].
    destruct (String.eqb_spec (Artifact (snd call)) artifact) as [->|Ha].
    - apply lookup_insert_eq.
    - rewrite lookup_insert_ne by done. exact IH. }
  split; [exact Hlast|].
  rewrite Hlast. destruct (last_build artifact calls); eauto.
Qed.

(** X12. After a sequence of calls of [Handle] the deploy status is
    that of the last Deploy event, or the earlier one if there was
    none. *)
Theorem Handle_all_deploy (calls : list (Z * proto_Event)) (w : world) :
  DeployStatus (DeployState (state (ev (Handle_all calls w)))) =
  match last_deploy calls with
  | Some status => status
  | None => DeployStatus (DeployState (state (ev w)))
  end.
Proof.
  induction calls as [|call calls IH] using rev_ind; [reflexivity|].
  rewrite Handle_all_snoc, Handle_update_deploy.
  unfold last_deploy in *. rewrite foldl_snoc.
  destruct (EventType (snd call) =? Deploy)%string; [reflexivity | exact IH].
Qed.

(** X13. After a sequence of calls of [Handle] the forwarded ports are
    the earlier ones followed by the descriptor of every Port event, in
    order, repeated ones included. *)
Theorem Handle_all_ports (calls : list (Z * proto_Event)) (w : world) :
  ForwardedPorts (PortState (state (ev (Handle_all calls w)))) =
  ForwardedPorts (PortState (state (ev w))) ++ ports_of calls.
Proof.
  induction calls as [|call calls IH] using rev_ind.
  - simpl. now rewrite app_nil_r.
  - rewrite Handle_all_snoc, Handle_update_port, IH.
    unfold ports_of. rewrite List.filter_app, map_app. simpl.
    destruct (EventType (snd call) =? Port)%string; simpl.
    + now rewrite app_assoc.
    + now rewrite app_nil_r.
Qed.

(** X14. The message derived for an event does not depend on the state
    the event finds. *)
Theorem Handle_message_ignores_state (event : proto_Event)
    (st st' : proto_State) :
  snd (Handle_update event st) = snd (Handle_update event st').
Proof.
  unfold Handle_update.
  destruct (EventType event =? Build)%string,
           (EventType event =? Deploy)%string,
           (EventType event =? Port)%string; reflexivity.
Qed.

Lemma step_state (a : action) (w w' : world) :
  appends a = false -> step a w = Some w' -> state (ev w') = state (ev w).
Proof.
  destruct a as [now event|c|c|c err]; simpl; intros Ha Hstep;
    try discriminate.
  - unfold EventLog_call in Hstep.
    destruct (streams w !! c); inversion Hstep; now subst.
  - unfold EventLog_step in Hstep.
    destruct (streams w !! c) as [s|]; [|discriminate].
    destruct (pc s) as [[|entry rest]| |entry|e]; try discriminate.
    + inversion Hstep; now subst.
    + unfold Send in Hstep. destruct (peer s); inversion Hstep; now subst.
    + inversion Hstep; now subst.
  - unfold disconnect in Hstep.
    destruct (streams w !! c); inversion Hstep; now subst.
Qed.

Lemma Handle_all_same_state (calls : list (Z * proto_Event)) (w1 w2 : world) :
  state (ev w1) = state (ev w2) ->
  state (ev (Handle_all calls w1)) = state (ev (Handle_all calls w2)).
Proof. intros Hst. now rewrite !Handle_all_state, Hst. Qed.

(** X15. However the calls of [EventLog] are interleaved with the calls
    of [Handle], [GetState] returns, with no error, the state that the
    calls of [Handle] alone give in their order. *)
Theorem GetState_under_interleaving (sched : list action) :
  forall w w',
    run sched w = Some w' ->
    GetState w' = (state (ev (Handle_all (produces sched) w)), None).
Proof.
  unfold GetState.
  induction sched as [|a sched IH]; intros w w' Hrun; simpl in Hrun.
  - now inversion Hrun; subst.
  - destruct (step a w) as [w1|] eqn:Hstep; [|discriminate].
    rewrite (IH w1 w' Hrun). f_equal.
    destruct a as [now event|c|c|c err]; simpl.
    + simpl in Hstep. now inversion Hstep; subst.
    + apply Handle_all_same_state. now apply (step_state (Attach c)).
    + apply Handle_all_same_state. now apply (step_state (Advance c)).
    + apply Handle_all_same_state. now apply (step_state (Disconnect c err)).
Qed.

End FoldFacts.

(** ** More on EventLog *)

Section ReplayFacts.
Context `{Constants}.

Lemma replay_steps (c : nat) (pending : list proto_LogEntry) :
  forall w s,
    streams w !! c = Some s ->
    pc s = Replaying pending -> peer s = None ->
    run (replicate (S (length pending)) (Advance c)) w =
      Some {| ev := RegisterListener c (ev w);
              streams := <[c := {| peer := None; pc := Live;
                                   sent := sent s ++ pending |}]> (streams w) |}.
Proof.
  induction pending as [|entry rest IH]; intros w s Hs Hpc Hpeer.
  - simpl. unfold EventLog_step. rewrite Hs, Hpc. simpl.
    unfold set_pc. now rewrite Hpeer, app_nil_r.
  - set (s1 := {| peer := None; pc := Replaying rest;
                    sent := sent s ++ [entry] |}).
    set (w1 := {| ev := ev w; streams := <[c := s1]> (streams w) |}).
    assert (Hstep : step (Advance c) w = Some w1).
    { simpl. unfold EventLog_step, Send. now rewrite Hs, Hpc, Hpeer. }
    change (replicate (S (length (entry :: rest))) (Advance c))
      with (Advance c :: replicate (S (length rest)) (Advance c)).
    cbn [run]. rewrite Hstep.
    rewrite (IH w1 s1); [| apply lookup_insert_eq | reflexivity | reflexivity].
    subst w1 s1. simpl. now rewrite insert_insert_eq, <- app_assoc.
Qed.

(** X16. A call of [EventLog] on a log of n entries, left alone with a
    connected peer, has after n + 1 steps sent the n entries in order
    and registered its channel last in the listener set; the log and the
    state are as they were. *)
Theorem EventLog_replays_whole_log (c : nat) (w : world) :
  streams w !! c = None ->
  exists w',
    run (Attach c :: replicate (S (length (eventLog (ev w)))) (Advance c)) w
      = Some w' /\
    streams w' !! c =
      Some {| peer := None; pc := Live; sent := eventLog (ev w) |} /\
    listeners (ev w') = listeners (ev w) ++ [c] /\
    eventLog (ev w') = eventLog (ev w) /\
    state (ev w') = state (ev w).
Proof.
  intros Hfresh.
  set (s0 := {| peer := None; pc := Replaying (eventLog (ev w)); sent := [] |}).
  set (w0 := {| ev := ev w; streams := <[c := s0]> (streams w) |}).
  assert (Hstep : step (Attach c) w = Some w0).
  { simpl. unfold EventLog_call. now rewrite Hfresh. }
  cbn [run]. rewrite Hstep.
  rewrite (replay_steps c (eventLog (ev w)) w0 s0);
    [| apply lookup_insert_eq | reflexivity | reflexivity].
  eexists. split; [reflexivity|]. simpl.
  split; [apply lookup_insert_eq|]. repeat split.
Qed.

Lemma step_in_order (c : nat) (a : action) (w w' : world) :
  well_registered w -> in_order c w -> step a w = Some w' -> in_order c w'.
Proof.
  intros (Hnd & Hreg) Hord Hstep.
  destruct a as [now event|d|d|d err]; simpl in Hstep.
  - inversion Hstep; subst w'; clear Hstep.
    destruct (Handle_fanout now event w) as (entry & Hlog & _ & Hss).
    destruct (fanout_spec entry _ (streams w) Hnd) as (_ & _ & Hlk).
    intros s'. rewrite Hss, Hlk, Hlog. clear Hss Hlk Hlog.
    destruct (streams w !! c) as [s|] eqn:Hs;
      [|destruct (decide _); discriminate].
    specialize (Hord s Hs).
    assert (Hidle :
      match pc s with
      | Replaying pending =>
          (sent s ++ pending) `sublist_of` (eventLog (ev w) ++ [entry])
      | Sending e =>
          (sent s ++ [e]) `sublist_of` (eventLog (ev w) ++ [entry])
      | _ => sent s `sublist_of` (eventLog (ev w) ++ [entry])
      end).
    { destruct (pc s); now apply sublist_inserts_r. }
    destruct (decide (c ∈ listeners (ev w))) as [Hc|Hc]; simpl;
      intros [= <-]; [|exact Hidle].
    unfold deliver. destruct (pc s) as [p| |e|e] eqn:Hpc; rewrite ?Hpc;
      try exact Hidle.
    simpl. now apply sublist_app.
  - unfold EventLog_call in Hstep.
    destruct (streams w !! d) eqn:Hd; [discriminate|].
    inversion Hstep; subst w'; clear Hstep. intros s'. simpl.
    destruct (decide (c = d)) as [->|Hne].
    + rewrite lookup_insert_eq. intros [= <-]. simpl. reflexivity.
    + rewrite lookup_insert_ne by done. apply Hord.
  - destruct (streams w !! d) as [s|] eqn:Hd;
      [|unfold EventLog_step in Hstep; now rewrite Hd in Hstep].
    destruct (decide (c = d)) as [->|Hne].
    + specialize (Hord s Hd).
      destruct (EventLog_step_inv d w w' s Hstep Hd)
        as [[Hpc ->]|(s' & -> & Hcase)]; intros s0; simpl;
        rewrite lookup_insert_eq; intros [= <-].
      * rewrite Hpc, app_nil_r in Hord. exact Hord.
      * destruct Hcase as [(entry & rest & Hpc & Hsend)|(entry & Hpc & ->)];
          rewrite Hpc in Hord.
        -- destruct Hsend as [[_ ->]|(e & _ & ->)]; simpl.
           ++ now rewrite <- app_assoc.
           ++ etransitivity; [|exact Hord]. now apply sublist_inserts_r.
        -- destruct (forward_pc entry s) as [[_ ->]|(e & _ & ->)]; simpl.
           ++ exact Hord.
           ++ etransitivity; [|exact Hord]. now apply sublist_inserts_r.
    + assert (Hw' : eventLog (ev w') = eventLog (ev w) /\
                    streams w' !! c = streams w !! c).
      { destruct (EventLog_step_inv d w w' s Hstep Hd)
          as [[_ ->]|(s' & -> & _)]; simpl;
          now rewrite lookup_insert_ne. }
      destruct Hw' as [Hlog Hss]. intros s'. rewrite Hss, Hlog. apply Hord.
  - unfold disconnect in Hstep.
    destruct (streams w !! d) as [s|] eqn:Hd; [|discriminate].
    inversion Hstep; subst w'; clear Hstep. intros s'. simpl.
    destruct (decide (c = d)) as [->|Hne].
    + rewrite lookup_insert_eq. intros [= <-]. simpl. now apply Hord.
    + rewrite lookup_insert_ne by done. apply Hord.
Qed.

Lemma run_in_order (c : nat) (sched : list action) :
  forall w w',
    well_registered w -> in_order c w ->
    run sched w = Some w' -> in_order c w'.
Proof.
  induction sched as [|a sched IH]; intros w w' Hw Hord Hrun; simpl in Hrun.
  - now inversion Hrun; subst.
  - destruct (step a w) as [w1|] eqn:Hstep; [|discriminate].
    eapply IH; [| |exact Hrun].
    + eapply step_well_registered; eauto.
    + eapply step_in_order; eauto.
Qed.

(** X17. Whatever the interleaving, what a subscriber has been sent is a
    sublist of the log: entries can be missing, none is out of order and
    none is sent more often than it is in the log. *)
Theorem EventLog_sends_in_log_order
    (sched : list action) (w : world) (c : nat) (s : stream) :
  run sched init = Some w ->
  streams w !! c = Some s ->
  sent s `sublist_of` eventLog (ev w).
Proof.
  intros Hrun Hs.
  assert (Hinit : in_order c init).
  { intros s0 Hs0. change (streams init) with (∅ : gmap nat stream) in Hs0.
    now rewrite lookup_empty in Hs0. }
  pose proof (run_in_order c sched init w init_well_registered Hinit Hrun
                s Hs) as Hord.
  destruct (pc s); try exact Hord;
    (etransitivity; [|exact Hord]); now apply sublist_inserts_r.
Qed.

(** X18. Whatever the interleaving, no channel is registered twice and
    every registered channel belongs to a call that has finished its
    replay: a call that is still replaying is not registered. *)
Theorem EventLog_registers_after_replay
    (sched : list action) (w : world) :
  run sched init = Some w ->
  NoDup (listeners (ev w)) /\
  (forall c, c ∈ listeners (ev w) ->
     exists s, streams w !! c = Some s /\ forall p, pc s <> Replaying p) /\
  (forall c s pending,
     streams w !! c = Some s -> pc s = Replaying pending ->
     c ∉ listeners (ev w)).
Proof.
  intros Hrun.
  destruct (run_well_registered sched init w init_well_registered Hrun)
    as (Hnd & Hreg).
  split; [exact Hnd|]. split; [exact Hreg|].
  intros c s pending Hs Hp Hin. destruct (Hreg c Hin) as (s' & Hs' & Hpast).
  rewrite Hs in Hs'. inversion Hs'; subst s'. exact (Hpast pending Hp).
Qed.

End ReplayFacts.

Lemma Handle_all_artifact_witness :
  let w := Handle_all [(1, build_event "artifact-a" "InProgress")]%Z init in
  let calls := [(2, deploy_event "Complete");
                (3, build_event "artifact-b" "Failed")]%Z in
  is_Some (Artifacts (BuildState (state (ev (Handle_all calls w))))
             !! "artifact-a").
Proof.
  intros w calls.
  apply (proj2 (Handle_all_artifact calls w "artifact-a")).
  exists "InProgress". reflexivity.
Defined.

Lemma GetState_under_interleaving_witness :
  exists w,
    run racing_attach init = Some w /\
    GetState w = (state (ev (Handle_all (produces racing_attach) init)), None).
Proof.
  pose (w := default init (run racing_attach init)).
  assert (Hrun : run racing_attach init = Some w) by (vm_compute; reflexivity).
  exists w. split; [exact Hrun|].
  exact (GetState_under_interleaving racing_attach init w Hrun).
Defined.

Lemma EventLog_replays_whole_log_witness :
  let w := Handle_all [(1, build_event "artifact-a" "InProgress");
                       (2, build_event "artifact-a" "Complete")]%Z init in
  exists w',
    run (Attach 0 :: replicate (S (length (eventLog (ev w)))) (Advance 0)) w
      = Some w' /\
    streams w' !! 0 =
      Some {| peer := None; pc := Live; sent := [started; completed] |}.
Proof.
  intros w.
  destruct (EventLog_replays_whole_log 0 w) as (w' & Hrun & Hs & _);
    [reflexivity|].
  exists w'. split; [exact Hrun | exact Hs].
Defined.

Lemma EventLog_sends_in_log_order_witness :
  [completed] `sublist_of` [started; completed].
Proof.
  pose (w := default init (run racing_attach init)).
  pose (s := {| peer := None; pc := Live; sent := [completed] |}).
  assert (Hrun : run racing_attach init = Some w) by (vm_compute; reflexivity).
  assert (Hs : streams w !! 0 = Some s) by (vm_compute; reflexivity).
  assert (Hlog : eventLog (ev w) = [started; completed])
    by (vm_compute; reflexivity).
  rewrite <- Hlog.
  exact (EventLog_sends_in_log_order racing_attach w 0 s Hrun Hs).
Defined.

Lemma EventLog_registers_after_replay_witness :
  exists w,
    run [Produce 1 (build_event "artifact-a" "InProgress"); Attach 0] init
      = Some w /\
    0 ∉ listeners (ev w).
Proof.
  pose (sched := [Produce 1 (build_event "artifact-a" "InProgress"); Attach 0]).
  pose (w := default init (run sched init)).
  pose (s := {| peer := None; pc := Replaying [started]; sent := [] |}).
  assert (Hrun : run sched init = Some w) by (vm_compute; reflexivity).
  assert (Hs : streams w !! 0 = Some s) by (vm_compute; reflexivity).
  exists w. split; [exact Hrun|].
  destruct (EventLog_registers_after_replay sched w Hrun) as (_ & _ & Hout).
  apply (Hout 0 s [started] Hs). reflexivity.
Defined.

(** ** More on newStatusServer *)

Lemma filter_out_absent (l : string) (xs : list string) :
  l ∉ xs -> filter (fun a => a ≠ l) xs = xs.
Proof.
  induction xs as [|x xs IH]; intros Hl; [reflexivity|].
  apply not_elem_of_cons in Hl as [Hne Hl].
  rewrite filter_cons_True by congruence. now rewrite IH.
Qed.

Lemma filter_out_last (l : string) (xs : list string) :
  l ∉ xs -> filter (fun a => a ≠ l) (xs ++ [l]) = xs.
Proof.
  intros Hl. rewrite filter_app, filter_out_absent by exact Hl.
  rewrite filter_cons_False by (intros Hne; now apply Hne).
  now rewrite filter_nil, app_nil_r.
Qed.

(** X19. When [net.Listen] succeeds, [newStatusServer] returns no error,
    has made one bind and leaves the listener open and served; calling
    the stop function it returns closes the listener and ends the
    serving, and calling it again changes nothing. *)
Theorem newStatusServer_stop_releases
    (port : string) (n n0 : net) (l : string) :
  port <> "" ->
  net_Listen port n = (n0, Ok l) ->
  l ∉ open n -> l ∉ serving n ->
  exists n1 f,
    newStatusServer port n = (n1, (f, None)) /\
    l ∈ open n1 /\ l ∈ serving n1 /\
    binds n1 = binds n ++ [port] /\
    open (call_stop f n1) = open n /\
    serving (call_stop f n1) = serving n /\
    call_stop f (call_stop f n1) = call_stop f n1.
Proof.
  intros Hport Hlisten Hopen Hserving.
  unfold newStatusServer.
  rewrite (proj2 (String.eqb_neq port "") Hport), Hlisten.
  exists (go_Serve l n0), (stop_server l). split; [reflexivity|].
  unfold net_Listen in Hlisten.
  destruct (unavailable n !! port) as [err|] eqn:Hfree; [discriminate|].
  inversion Hlisten; subst n0 l; clear Hlisten. simpl.
  rewrite !filter_out_last by assumption.
  split; [apply elem_of_app; right; now left|].
  split; [apply elem_of_app; right; now left|].
  split; [reflexivity|]. split; [reflexivity|]. split; [reflexivity|].
  rewrite !filter_out_absent by assumption.
  f_equal. now rewrite delete_delete_eq.
Qed.

Lemma newStatusServer_stop_releases_witness :
  exists n1 f,
    newStatusServer ":50052" busy_net = (n1, (f, None)) /\
    open (call_stop f n1) = [] /\ serving (call_stop f n1) = [].
Proof.
  destruct (newStatusServer_stop_releases ":50052" busy_net
              (fst (net_Listen ":50052" busy_net)) ":50052")
    as (n1 & f & Hstart & _ & _ & _ & Hopen & Hserving & _).
  - discriminate.
  - reflexivity.
  - apply not_elem_of_nil.
  - apply not_elem_of_nil.
  - exists n1, f. repeat split; assumption.
Defined.

End EventProofs.
